(** * A shallow embedding of the audio visualizer front-end extension
    (web/audio_visualizer.js): analyser reads, the three renderers,
    the background pass, the opacity setter, the audio path split, and
    the capture/render-loop lifecycle of [AudioVisualizer]. *)

From Stdlib Require Import QArith Qminmax Qround Lqa ZArith Lia Bool List String Ascii DecimalString.
From stdpp Require Import base gmap.
Import ListNotations.

(* ------------------------------------------------------------------ *)
(** ** Platform: the Web Audio [AnalyserNode] and typed arrays *)

Module Analyser.

Record AnalyserNode := mkAnalyser {
  fftSize : nat;
}.

(** [frequencyBinCount] is half of [fftSize] (Web Audio). *)
Definition frequencyBinCount (a : AnalyserNode) : nat := Nat.div (fftSize a) 2.

(** [new Uint8Array(n)]: [n] zero bytes. *)
Definition new_Uint8Array (n : nat) : list Z := List.repeat 0%Z n.

(** Copies [min(len arr, n)] values of [src] into [arr], the array keeps
    its length (the behaviour of [getByte*Data] on a short or long array). *)
Fixpoint fill_from (n : nat) (src : nat -> Z) (i : nat) (arr : list Z) : list Z :=
  match arr with
  | [] => []
  | old :: rest =>
      (if Nat.ltb i n then src i else old) :: fill_from n src (S i) rest
  end.

(** [analyser.getByteTimeDomainData(arr)]: the current window holds
    [fftSize] samples ([td]). *)
Definition getByteTimeDomainData (a : AnalyserNode) (td : nat -> Z) (arr : list Z) : list Z :=
  fill_from (fftSize a) td 0 arr.

(** [analyser.getByteFrequencyData(arr)]: [frequencyBinCount] bins ([fd]). *)
Definition getByteFrequencyData (a : AnalyserNode) (fd : nat -> Z) (arr : list Z) : list Z :=
  fill_from (frequencyBinCount a) fd 0 arr.

(** Valid sizes: powers of two from 2^7 = 128 to 2^15 = 32768. *)
Definition valid_fftSize (n : nat) : bool :=
  existsb (fun k => Nat.eqb n (2 ^ k)) (seq 7 9).

End Analyser.

(* ------------------------------------------------------------------ *)
(** ** The per-frame read of [draw]/[drawWave]/[drawBars]/[drawCircular] *)

Module Frame.
Import Analyser.

Inductive Mode := WAVE | BARS | CIRCULAR | OTHER_MODE.

(** In [draw]: [bufferLength = analyser.frequencyBinCount] and
    [dataArray = new Uint8Array(bufferLength)]; then [drawWave] fills it
    with [getByteTimeDomainData], [drawBars] and [drawCircular] with
    [getByteFrequencyData]. Result: the buffer handed to the renderer. *)
Definition frame_buffer (m : Mode) (a : AnalyserNode) (td fd : nat -> Z) : list Z :=
  let bufferLength := frequencyBinCount a in
  let dataArray := new_Uint8Array bufferLength in
  match m with
  | WAVE => getByteTimeDomainData a td dataArray
  | BARS | CIRCULAR => getByteFrequencyData a fd dataArray
  | OTHER_MODE => dataArray
  end.

End Frame.

(* ------------------------------------------------------------------ *)
(** ** Canvas operations emitted by the renderers *)

Module Render.
Local Open Scope Q_scope.

(** A JS number read from a byte array: [undefined] out of range. *)
Definition byte_at (data : list Z) (i : nat) : option Q :=
  option_map inject_Z (nth_error data i).

Inductive Color := Primary | Secondary | BackgroundColor.

Inductive CanvasOp :=
  | MoveTo (x y : Q)
  | LineTo (x y : Q)
  | Stroke (c : Color) (lineWidth : Q)
  | FillRect (x y w h : Q)
  | CenterDisc (r : Q)
  (** a radial line at angle [i * 2pi/180]: from radius [r0] to [r1];
      [None] stands for a NaN length ([undefined] sample). *)
  | Radial (c : Color) (i : nat) (r0 : Q) (r1 : option Q).

(** [drawWave], primary line: [v = dataArray[i] / 128.0],
    [y = (v * HEIGHT) / 2], [moveTo] for [i = 0], [lineTo] afterwards,
    [x += sliceWidth]. *)
Fixpoint wave_primary (HEIGHT sliceWidth : Q) (data : list Z) (i : nat) (x : Q)
  : list CanvasOp :=
  match data with
  | [] => []
  | d :: rest =>
      let v := inject_Z d / 128 in
      let y := (v * HEIGHT) / 2 in
      (if Nat.eqb i 0 then MoveTo x y else LineTo x y)
        :: wave_primary HEIGHT sliceWidth rest (S i) (x + sliceWidth)
  end.

(** [drawWave], secondary line: [for (i = 0; i < bufferLength; i += 5)],
    [y = (v * HEIGHT) / 2 + 5], [x += sliceWidth * 5]. [fuel] bounds the
    iterations (one per index is more than enough). *)
Fixpoint wave_secondary (HEIGHT sliceWidth : Q) (data : list Z) (bufferLength : nat)
    (fuel i : nat) (x : Q) : list CanvasOp :=
  match fuel with
  | O => []
  | S fuel' =>
      if Nat.ltb i bufferLength then
        let v := match byte_at data i with Some b => b | None => 0 end / 128 in
        let y := (v * HEIGHT) / 2 + 5 in
        (if Nat.eqb i 0 then MoveTo x y else LineTo x y)
          :: wave_secondary HEIGHT sliceWidth data bufferLength fuel' (i + 5)
               (x + sliceWidth * 5)
      else []
  end.

(** [drawWave(dataArray, WIDTH, HEIGHT, bufferLength)], after the read. *)
Definition drawWave (data : list Z) (WIDTH HEIGHT : Q) (bufferLength : nat)
  : list CanvasOp :=
  let sliceWidth := WIDTH / inject_Z (Z.of_nat bufferLength) in
  wave_primary HEIGHT sliceWidth (firstn bufferLength data) 0 0
    ++ [LineTo WIDTH (HEIGHT / 2); Stroke Primary 2]
    ++ wave_secondary HEIGHT sliceWidth data bufferLength bufferLength 0 0
    ++ [Stroke Secondary 1].

(** [drawBars]: [barHeight = (dataArray[i] / 255) * HEIGHT],
    [fillRect(x, HEIGHT - barHeight, barWidth, barHeight)],
    [x += barWidth + 1; if (x > WIDTH) break]. *)
Fixpoint bars_loop (WIDTH HEIGHT barWidth : Q) (data : list Z) (x : Q)
  : list CanvasOp :=
  match data with
  | [] => []
  | d :: rest =>
      let barHeight := (inject_Z d / 255) * HEIGHT in
      let x' := x + barWidth + 1 in
      FillRect x (HEIGHT - barHeight) barWidth barHeight
        :: (if Qle_bool x' WIDTH then bars_loop WIDTH HEIGHT barWidth rest x' else [])
  end.

Definition drawBars (data : list Z) (WIDTH HEIGHT : Q) (bufferLength : nat)
  : list CanvasOp :=
  let barWidth := (WIDTH / inject_Z (Z.of_nat bufferLength)) * (5 # 2) in
  bars_loop WIDTH HEIGHT barWidth (firstn bufferLength data) 0.

(** [drawCircular]: [barsToDraw = 180], [step = Math.floor(bufferLength / 180)],
    sample [dataArray[i * step]]. *)
Definition barsToDraw : nat := 180.

Definition circular_step (bufferLength : nat) : nat := Nat.div bufferLength barsToDraw.

Definition circular_indices (bufferLength : nat) : list nat :=
  map (fun i => i * circular_step bufferLength)%nat (seq 0 barsToDraw).

(** The canvas calls of [drawCircular], up to the one that throws:
    [arc] with the negative radius [radius - 10] throws an
    [IndexSizeError], and nothing after it runs. *)
Definition drawCircular (data : list Z) (WIDTH HEIGHT : Q) (bufferLength : nat)
  : list CanvasOp :=
  let radius := Qmin WIDTH HEIGHT / 4 in
  CenterDisc (radius - 10) ::
  (if negb (Qle_bool 0 (radius - 10)) then [] else
   flat_map (fun i =>
       let value := byte_at data (i * circular_step bufferLength)%nat in
       let barHeight := option_map (fun v => (v / 255) * (Qmin WIDTH HEIGHT / 3)) value in
       [Radial Primary i radius (option_map (fun h => radius + h) barHeight);
        Radial Secondary i radius (option_map (fun h => radius - h * (3 # 10)) barHeight)])
     (seq 0 barsToDraw)).

End Render.

(* ------------------------------------------------------------------ *)
(** ** JS numbers, [setBackgroundOpacity] and [renderBackground] *)

Module Opacity.
Local Open Scope Q_scope.

(** A JS number (IEEE doubles are modelled by their rational value,
    plus the special values). *)
Inductive jsnum := JFin (q : Q) | JNaN | JPosInf | JNegInf.

(** [value || 0] for a value that is a number or absent ([None] is
    [undefined]): [0], [-0] and [NaN] are falsy. *)
Definition or_zero (v : option jsnum) : jsnum :=
  match v with
  | None => JFin 0
  | Some (JFin q) => if Qeq_bool q 0 then JFin 0 else JFin q
  | Some JNaN => JFin 0
  | Some n => n
  end.

(** [Math.min(a, b)] and [Math.max(a, b)]. *)
Definition js_min (a b : jsnum) : jsnum :=
  match a, b with
  | JNaN, _ | _, JNaN => JNaN
  | JNegInf, _ | _, JNegInf => JNegInf
  | JPosInf, x | x, JPosInf => x
  | JFin p, JFin q => JFin (Qmin p q)
  end.

Definition js_max (a b : jsnum) : jsnum :=
  match a, b with
  | JNaN, _ | _, JNaN => JNaN
  | JPosInf, _ | _, JPosInf => JPosInf
  | JNegInf, x | x, JNegInf => x
  | JFin p, JFin q => JFin (Qmax p q)
  end.

(** [setBackgroundOpacity(value)]: the stored [this.backgroundOpacity].
    Its only caller passes [parseFloat(slider.value)]. *)
Definition setBackgroundOpacity (value : option jsnum) : jsnum :=
  js_max (JFin 0) (js_min (JFin (1 # 2)) (or_zero value)).

(** [renderBackground(WIDTH, HEIGHT)]: solid fill, then either the image
    overlay or (opacity > 0) the two gradients, each under [globalAlpha]. *)
Inductive BgOp :=
  | BgFill (w h : Q)
  | BgImage (globalAlpha : Q)
  | BgRadialGradient (globalAlpha : Q)
  | BgLinearGradient (globalAlpha : Q).

Definition renderBackground (backgroundImageCanvas : bool) (backgroundOpacity : Q)
    (WIDTH HEIGHT : Q) : list BgOp :=
  BgFill WIDTH HEIGHT ::
  (if backgroundImageCanvas then
     [BgImage (Qmax 0 (Qmin 1 (backgroundOpacity + (1 # 20))))]
   else if Qlt_le_dec 0 backgroundOpacity then
     [BgRadialGradient backgroundOpacity; BgLinearGradient backgroundOpacity]
   else []).

End Opacity.

(* ------------------------------------------------------------------ *)
(** ** One tick of [draw()] *)

Module Tick.
Import Frame.
Local Open Scope Q_scope.

(** [canvas.width = x] stores [ToUint32(x)]: truncation of a positive value. *)
Definition to_uint (q : Q) : nat := Z.to_nat (Qfloor q).

Inductive TickOp :=
  | TBackground (WIDTH HEIGHT : nat)
  | TRender (m : Mode) (WIDTH HEIGHT bufferLength : nat).

Record TickIn := mkTickIn {
  has_ctx : bool;          (* this.ctx *)
  has_analyser : bool;     (* this.analyser *)
  has_canvas : bool;       (* this.canvas *)
  rect_width : Q;          (* canvas.getBoundingClientRect() *)
  rect_height : Q;
  canvas_width : nat;      (* canvas.width / canvas.height before the tick *)
  canvas_height : nat;
  mode : Mode;
  bin_count : nat          (* analyser.frequencyBinCount *)
}.

Record TickOut := mkTickOut {
  new_width : nat;
  new_height : nat;
  ops : list TickOp;
  rescheduled : bool       (* requestAnimationFrame(() => this.draw()) *)
}.

Definition draw (t : TickIn) : TickOut :=
  if negb (has_ctx t && has_analyser t && has_canvas t) then
    mkTickOut (canvas_width t) (canvas_height t) [] false
  else
    let '(w, h) :=
      if Qlt_le_dec 0 (rect_width t) then
        if Qlt_le_dec 0 (rect_height t) then
          if negb (Qeq_bool (inject_Z (Z.of_nat (canvas_width t))) (rect_width t)
                   && Qeq_bool (inject_Z (Z.of_nat (canvas_height t))) (rect_height t))
          then (to_uint (rect_width t), to_uint (Qmax 200 (rect_height t)))
          else (canvas_width t, canvas_height t)
        else (canvas_width t, canvas_height t)
      else (canvas_width t, canvas_height t) in
    let bl := bin_count t in
    let render :=
      match mode t with
      | OTHER_MODE => []
      | m => [TRender m w h bl]
      end in
    mkTickOut w h (TBackground w h :: render) true.

End Tick.

(* ------------------------------------------------------------------ *)
(** ** [getAudioUrl]: splitting "subfolder/filename" *)

Module AudioUrl.
Local Open Scope string_scope.

Definition slash : ascii := "/"%char.

Fixpoint last_index_from (c : ascii) (s : string) (i : nat) (acc : Z) : Z :=
  match s with
  | EmptyString => acc
  | String a rest =>
      last_index_from c rest (S i) (if Ascii.eqb a c then Z.of_nat i else acc)
  end.

(** [s.lastIndexOf(c)], [-1] when absent. *)
Definition lastIndexOf (s : string) (c : ascii) : Z := last_index_from c s 0 (-1).

Fixpoint str_drop (n : nat) (s : string) : string :=
  match n, s with
  | O, _ => s
  | S n', String _ rest => str_drop n' rest
  | S _, EmptyString => EmptyString
  end.

Fixpoint str_take (n : nat) (s : string) : string :=
  match n, s with
  | O, _ => EmptyString
  | S n', String a rest => String a (str_take n' rest)
  | S _, EmptyString => EmptyString
  end.

(** [s.substring(a, b)] for [0 <= a <= b], and [s.substring(a)]. *)
Definition substring2 (s : string) (a b : nat) : string := str_take (b - a) (str_drop a s).
Definition substring1 (s : string) (a : nat) : string := str_drop a s.

(** The [(filename, subfolder)] pair computed by [getAudioUrl]. *)
Definition split_audio_value (audioValue : string) : string * string :=
  let folderSeparator := lastIndexOf audioValue slash in
  if Z.eqb folderSeparator (-1) then (audioValue, "")
  else (substring1 audioValue (S (Z.to_nat folderSeparator)),
        substring2 audioValue 0 (Z.to_nat folderSeparator)).

Section Url.
Variable encodeURIComponent : string -> string.
Variable randParam : string.                 (* the cache-busting parameter *)
Variable apiURL : option (string -> string). (* app.api.apiURL, when present *)

Definition getAudioUrl (audioValue : string) : string :=
  let '(filename, subfolder) := split_audio_value audioValue in
  let params := "filename=" ++ encodeURIComponent filename ++ "&type=input"
                ++ "&subfolder=" ++ encodeURIComponent subfolder ++ "&" ++ randParam in
  let resourceUrl := "/view?" ++ params in
  match apiURL with
  | Some f => f resourceUrl
  | None => resourceUrl
  end.
End Url.

End AudioUrl.

(* ------------------------------------------------------------------ *)
(** ** The capture session and render loop of [AudioVisualizer]

    One visualizer, the DOM audio elements it may be handed (keyed by
    object identity), the audio contexts it creates, the pending
    animation-frame requests and the deferred callbacks it registers. *)

Module Capture.

(** A [MediaElementSourceNode]: its id and the [AudioContext] it lives in. *)
Record SourceNode := mkSource { node_id : nat; node_ctx : nat }.

(** An [HTMLAudioElement]. [_audioVisualizerSource] is the marker the code
    stores on it; [mes_calls] counts the [createMediaElementSource] calls
    made on it (the platform throws on any call after the first). *)
Record Elem := mkElem {
  readyState : nat;
  paused : bool;
  src : string;
  currentTime : nat;
  _audioVisualizerSource : option SourceNode;
  mes_calls : nat
}.

Definition fresh_elem : Elem := mkElem 0 true EmptyString 0 None 0.

(** Callbacks registered by [connectToAudioElement]: the once-listener on
    [loadeddata] and the 100 ms retry timer, both closing over the element. *)
Inductive Task := TLoaded (e : nat) | TTimeout (e : nat).

(** Fields of [this] concerning the audio graph. [analyser] records the
    context the [AnalyserNode] belongs to. *)
Record Audio := mkAudio {
  audioElement : option nat;
  audioContext : option nat;
  analyser : option nat;
  source : option SourceNode;
  isInitialized : bool
}.

Record World := mkWorld {
  visualizerEnabled : bool;
  isOfficialNode : bool;
  has_ctx : bool;              (* this.ctx && this.canvas *)
  audio_supported : bool;      (* window.AudioContext exists *)
  audio : Audio;
  animationFrameId : option nat;
  pending : list nat;          (* frame requests not yet fired nor cancelled *)
  elems : gmap nat Elem;
  closed : list nat;           (* closed audio contexts *)
  next_id : nat;               (* fresh ids for contexts, nodes and frames *)
  tasks : list Task;
  circular : bool;             (* this.config.mode === "circular" *)
  small_canvas : bool          (* after draw()'s resize step the canvas is
                                  under 40 px wide or high *)
}.

Definition get_elem (w : World) (e : nat) : Elem := default fresh_elem (elems w !! e).

Definition set_audio (w : World) (a : Audio) : World :=
  mkWorld (visualizerEnabled w) (isOfficialNode w) (has_ctx w) (audio_supported w) a
    (animationFrameId w) (pending w) (elems w) (closed w) (next_id w) (tasks w)
    (circular w) (small_canvas w).
Definition set_frame (w : World) (afid : option nat) (p : list nat) : World :=
  mkWorld (visualizerEnabled w) (isOfficialNode w) (has_ctx w) (audio_supported w) (audio w)
    afid p (elems w) (closed w) (next_id w) (tasks w)
    (circular w) (small_canvas w).
Definition set_elem (w : World) (e : nat) (el : Elem) : World :=
  mkWorld (visualizerEnabled w) (isOfficialNode w) (has_ctx w) (audio_supported w) (audio w)
    (animationFrameId w) (pending w) (<[e := el]> (elems w)) (closed w) (next_id w) (tasks w)
    (circular w) (small_canvas w).
Definition set_closed (w : World) (c : list nat) : World :=
  mkWorld (visualizerEnabled w) (isOfficialNode w) (has_ctx w) (audio_supported w) (audio w)
    (animationFrameId w) (pending w) (elems w) c (next_id w) (tasks w)
    (circular w) (small_canvas w).
Definition set_next (w : World) (n : nat) : World :=
  mkWorld (visualizerEnabled w) (isOfficialNode w) (has_ctx w) (audio_supported w) (audio w)
    (animationFrameId w) (pending w) (elems w) (closed w) n (tasks w)
    (circular w) (small_canvas w).
Definition set_tasks (w : World) (t : list Task) : World :=
  mkWorld (visualizerEnabled w) (isOfficialNode w) (has_ctx w) (audio_supported w) (audio w)
    (animationFrameId w) (pending w) (elems w) (closed w) (next_id w) t
    (circular w) (small_canvas w).
Definition set_enabled (w : World) (b : bool) : World :=
  mkWorld b (isOfficialNode w) (has_ctx w) (audio_supported w) (audio w)
    (animationFrameId w) (pending w) (elems w) (closed w) (next_id w) (tasks w)
    (circular w) (small_canvas w).

Definition set_circular (w : World) (b : bool) : World :=
  mkWorld (visualizerEnabled w) (isOfficialNode w) (has_ctx w) (audio_supported w) (audio w)
    (animationFrameId w) (pending w) (elems w) (closed w) (next_id w) (tasks w)
    b (small_canvas w).
Definition set_small_canvas (w : World) (b : bool) : World :=
  mkWorld (visualizerEnabled w) (isOfficialNode w) (has_ctx w) (audio_supported w) (audio w)
    (animationFrameId w) (pending w) (elems w) (closed w) (next_id w) (tasks w)
    (circular w) b.

Definition with_element (a : Audio) (x : option nat) : Audio :=
  mkAudio x (audioContext a) (analyser a) (source a) (isInitialized a).
Definition with_context (a : Audio) (x : option nat) : Audio :=
  mkAudio (audioElement a) x (analyser a) (source a) (isInitialized a).
Definition with_analyser (a : Audio) (x : option nat) : Audio :=
  mkAudio (audioElement a) (audioContext a) x (source a) (isInitialized a).
Definition with_source (a : Audio) (x : option SourceNode) : Audio :=
  mkAudio (audioElement a) (audioContext a) (analyser a) x (isInitialized a).
Definition with_initialized (a : Audio) (x : bool) : Audio :=
  mkAudio (audioElement a) (audioContext a) (analyser a) (source a) x.

Definition is_set {A} (o : option A) : bool :=
  match o with Some _ => true | None => false end.

Definition is_closed (w : World) (c : nat) : bool := existsb (Nat.eqb c) (closed w).

(** [stopVisualization()]. *)
Definition stopVisualization (w : World) : World :=
  match animationFrameId w with
  | Some id => set_frame w None (filter (fun x => negb (Nat.eqb x id)) (pending w))
  | None => w
  end.

(** [draw()] as far as the loop is concerned: the guard, the renderer,
    then [this.animationFrameId = requestAnimationFrame(...)]. In circular
    mode on a canvas under 40 px [drawCircular] throws at [arc(...)] (a
    negative radius, see [TickExn]) and no frame is requested; every caller
    of [draw], [startVisualization] and [connectToAudioElement] does
    nothing after the call, so the exception changes no other state. *)
Definition draw (w : World) : World :=
  if has_ctx w && is_set (analyser (audio w)) then
    if circular w && small_canvas w then w
    else
      let id := next_id w in
      set_next (set_frame w (Some id) (id :: pending w)) (S id)
  else w.

(** [startVisualization()]. *)
Definition startVisualization (w : World) : World :=
  if isInitialized (audio w) && is_set (analyser (audio w)) && has_ctx w then
    draw (stopVisualization w)
  else w.

(** A frame request [id] fires: it leaves the pending set, then [draw()]. *)
Definition fire_frame (id : nat) (w : World) : World :=
  draw (set_frame w (animationFrameId w) (filter (fun x => negb (Nat.eqb x id)) (pending w))).

(** [audioContext.close()] on a context that is not closed yet. *)
Definition close_context (w : World) (c : nat) : World :=
  if is_closed w c then w else set_closed w (c :: closed w).

(** [cleanup()]. *)
Definition cleanup (w : World) : World :=
  let w1 := stopVisualization w in
  let w2 := match source (audio w1) with
            | Some _ => set_audio w1 (with_source (audio w1) None)
            | None => w1
            end in
  let w3 := match audioContext (audio w2) with
            | Some c => if is_closed w2 c then w2
                        else set_audio (close_context w2 c) (with_context (audio w2) None)
            | None => w2
            end in
  let w4 := set_audio w3 (with_initialized (with_analyser (audio w3) None) false) in
  if isOfficialNode w4 then set_audio w4 (with_element (audio w4) None)
  else match audioElement (audio w4) with
       | Some e =>
           let el := get_elem w4 e in
           (* pause(); src = "": the media load algorithm resets readyState
              to HAVE_NOTHING and the playback position to 0 *)
           let w5 := set_elem w4 e (mkElem 0 true EmptyString 0
                                      (_audioVisualizerSource el) (mes_calls el)) in
           set_audio w5 (with_element (audio w5) None)
       | None => w4
       end.

Definition opt_nat_eqb (a b : option nat) : bool :=
  match a, b with
  | Some x, Some y => Nat.eqb x y
  | None, None => true
  | _, _ => false
  end.

(** The [initContext] closure of [connectToAudioElement(audioElement)]. *)
Definition initContext (e : nat) (w : World) : World :=
  let w1 := match audioContext (audio w) with
            | Some c => close_context w c
            | None => w
            end in
  if negb (audio_supported w1) then w1      (* drawPlaceholder(...) *)
  else
  let c := next_id w1 in
  (* new AudioContextClass(); createAnalyser() *)
  let w2 := set_next (set_audio w1 (with_analyser (with_context (audio w1) (Some c)) (Some c))) (S c) in
  let el := get_elem w2 e in
  (* the inner try: inl when it completes, inr when it throws *)
  let attempt : World + World :=
    match _audioVisualizerSource el with
    | None =>
        if Nat.ltb 0 (mes_calls el) then
          inr (set_elem w2 e (mkElem (readyState el) (paused el) (src el) (currentTime el)
                                None (S (mes_calls el))))
        else
          let s := mkSource (next_id w2) c in
          let w3 := set_audio w2 (with_source (audio w2) (Some s)) in
          inl (set_next (set_elem w3 e (mkElem (readyState el) (paused el) (src el)
                                          (currentTime el) (Some s) (S (mes_calls el))))
                 (S (next_id w2)))
    | Some s =>
        (* disconnect(); connect(this.analyser) throws across contexts *)
        let w3 := set_audio w2 (with_source (audio w2) (Some s)) in
        if Nat.eqb (node_ctx s) c then inl w3 else inr w3
    end in
  (* the catch block: retry with the marker, else drawPlaceholder and return *)
  let after : World + World :=
    match attempt with
    | inl w3 => inl w3
    | inr w3 =>
        match _audioVisualizerSource (get_elem w3 e) with
        | Some s =>
            let w4 := set_audio w3 (with_source (audio w3) (Some s)) in
            if Nat.eqb (node_ctx s) c then inl w4 else inr w4
        | None => inr w3
        end
    end in
  match after with
  | inr w' => w'
  | inl w4 =>
      let w5 := set_audio w4 (with_initialized (audio w4) true) in
      if negb (paused (get_elem w5 e)) then startVisualization w5 else w5
  end.

(** [connectToAudioElement(audioElement)]. *)
Definition connectToAudioElement (e : nat) (w : World) : World :=
  if negb (visualizerEnabled w) then w
  else if opt_nat_eqb (audioElement (audio w)) (Some e) && isInitialized (audio w) then
    (if is_set (animationFrameId w) then w else startVisualization w)
  else
    let w1 := if opt_nat_eqb (audioElement (audio w)) (Some e) then w else cleanup w in
    let w2 := set_audio w1 (with_element (audio w1) (Some e)) in
    if Nat.leb 2 (readyState (get_elem w2 e)) then initContext e w2
    else
      let w3 := set_tasks w2 (tasks w2 ++ [TLoaded e]) in
      if negb (paused (get_elem w3 e)) then set_tasks w3 (tasks w3 ++ [TTimeout e]) else w3.

Definition task_eqb (a b : Task) : bool :=
  match a, b with
  | TLoaded x, TLoaded y => Nat.eqb x y
  | TTimeout x, TTimeout y => Nat.eqb x y
  | _, _ => false
  end.

Fixpoint remove_task (t : Task) (l : list Task) : list Task :=
  match l with
  | [] => []
  | t' :: rest => if task_eqb t t' then rest else t' :: remove_task t rest
  end.

(** The retry timer: [if (!this.isInitialized && audioElement.readyState >= 1) initContext()]. *)
Definition fire_timeout (e : nat) (w : World) : World :=
  let w1 := set_tasks w (remove_task (TTimeout e) (tasks w)) in
  if negb (isInitialized (audio w1)) && Nat.leb 1 (readyState (get_elem w1 e))
  then initContext e w1 else w1.

(** [setEnabled(enabled)] (the re-connection it may do is a separate step). *)
Definition setEnabled (b : bool) (w : World) : World :=
  let w1 := set_enabled w b in
  if b then w1 else cleanup w1.

(** The session part of [setMode(mode)] for a mode other than the current
    one: [circ] tells whether it is ["circular"], then
    [if (this.isInitialized) this.startVisualization()]. *)
Definition switchMode (circ : bool) (w : World) : World :=
  let w1 := set_circular w circ in
  if isInitialized (audio w1) then startVisualization w1 else w1.

(** Every way the world moves: calls from the node's handlers, the
    browser firing a frame or a callback, and the player or user changing
    an element's playback (never its marker), the user switching modes
    and the layout resizing the canvas. *)
Inductive step : World -> World -> Prop :=
  | StepConnect e w : step w (connectToAudioElement e w)
  | StepSetEnabled b w : step w (setEnabled b w)
  | StepStart w : step w (startVisualization w)
  | StepStop w : step w (stopVisualization w)
  | StepCleanup w : step w (cleanup w)
  | StepFrame id w : In id (pending w) -> step w (fire_frame id w)
  | StepLoaded e w :
      In (TLoaded e) (tasks w) -> 2 <= readyState (get_elem w e) ->
      step w (initContext e (set_tasks w (remove_task (TLoaded e) (tasks w))))
  | StepTimeout e w : In (TTimeout e) (tasks w) -> step w (fire_timeout e w)
  | StepPlayer e r p s t w :
      step w (set_elem w e (mkElem r p s t (_audioVisualizerSource (get_elem w e))
                              (mes_calls (get_elem w e))))
  | StepMode circ w : step w (switchMode circ w)
  | StepResize b w : step w (set_small_canvas w b).

(** A new visualizer: nothing attached. Its mode is not circular and its
    canvas not small; [StepMode] and [StepResize] reach the other cases. *)
Definition init_world (enabled official ctx supported : bool) : World :=
  mkWorld enabled official ctx supported (mkAudio None None None None false)
    None [] ∅ [] 1 [] false false.

Inductive reachable : World -> Prop :=
  | ReachInit en off c sup : reachable (init_world en off c sup)
  | ReachStep w w' : reachable w -> step w w' -> reachable w'.

End Capture.

(* ------------------------------------------------------------------ *)
(** ** Helpers used by the statements below *)

Module SpecHelpers.
Local Open Scope Q_scope.
Import Render Opacity.

(** The clamp the setter is meant to perform, written from the spec:
    finite inputs go to [max(0, min(0.5, v))], +inf to 0.5, everything
    else (-inf, NaN, absent) to 0. *)
Definition clamp_spec (v : option jsnum) : Q :=
  match v with
  | Some (JFin q) => Qmax 0 (Qmin (1 # 2) q)
  | Some JPosInf => 1 # 2
  | _ => 0
  end.



(** Does a string contain the character [c]? *)
Fixpoint str_has (c : ascii) (s : string) : bool :=
  match s with
  | EmptyString => false
  | String a rest => Ascii.eqb a c || str_has c rest
  end.

End SpecHelpers.

(** Invariants of the capture session, stated over [Capture.World]. *)
Module CaptureInv.
Import Capture.

(** At most one frame request is pending; when there is one, it is the
    recorded [animationFrameId], it is older than every fresh id, and the
    loop's guard ([isInitialized], [analyser], [ctx]) holds. *)
Definition loop_inv (w : World) : Prop :=
  pending w = [] \/
  exists id, pending w = [id] /\ animationFrameId w = Some id /\ id < next_id w /\
    isInitialized (audio w) = true /\ is_set (analyser (audio w)) = true /\
    has_ctx w = true.

(** A step that leaves the loop alone and only grows what the loop's
    guard reads. *)
Definition loop_mono (w w' : World) : Prop :=
  pending w' = pending w /\ animationFrameId w' = animationFrameId w /\
  next_id w <= next_id w' /\ has_ctx w' = has_ctx w /\
  (isInitialized (audio w) = true -> isInitialized (audio w') = true) /\
  (is_set (analyser (audio w)) = true -> is_set (analyser (audio w')) = true).

(** Each element either was never spliced and carries no marker, or was
    spliced exactly once and carries the marker. *)
Definition splice_inv (w : World) : Prop :=
  forall e,
    (_audioVisualizerSource (get_elem w e) = None /\ mes_calls (get_elem w e) = 0) \/
    (is_set (_audioVisualizerSource (get_elem w e)) = true /\ mes_calls (get_elem w e) = 1).

(** A visualizer bound to a loaded, playing element 1: an official node
    and a custom node. *)
Definition sample_world (official : bool) : World :=
  connectToAudioElement 1
    (set_elem (init_world true official true true) 1
       (mkElem 4 false "input/a.wav"%string 0 None 0)).

End CaptureInv.

(* ------------------------------------------------------------------ *)
(** ** Settings persisted in [node.properties]: the constructor's
       defaults, [setMode], [setEnabled], [setBackgroundOpacity] and the
       mode menu's labels *)

Module Persist.
Import Opacity Capture.
Local Open Scope string_scope.

(** A value read from or written to [node.properties]. *)
Inductive JsVal := VStr (s : string) | VNum (n : jsnum) | VBool (b : bool) | VNull.

Abbreviation Props := (gmap string JsVal).

Definition modeStorageKey : string := "__audio_visualizer_mode".
Definition opacityStorageKey : string := "__audio_visualizer_bg_opacity".
Definition enabledKey : string := "__audio_visualizer_enabled".

(** JS truthiness ([""], [0], [-0], [NaN], [false], [null] are falsy). *)
Definition truthy (v : JsVal) : bool :=
  match v with
  | VStr s => negb (String.eqb s "")
  | VNum (JFin q) => negb (Qeq_bool q 0)
  | VNum JNaN => false
  | VNum _ => true
  | VBool b => b
  | VNull => false
  end.

(** [v === s] for a string [s]. *)
Definition strict_eq_str (v : JsVal) (s : string) : bool :=
  match v with
  | VStr s' => String.eqb s' s
  | _ => false
  end.

(** The constructor: [config.mode]
    ([isOfficialNode ? (properties[modeStorageKey] || "bars") : "wave"]). *)
Definition init_mode (isOfficialNode : bool) (properties : Props) : JsVal :=
  if isOfficialNode then
    match properties !! modeStorageKey with
    | Some v => if truthy v then v else VStr "bars"
    | None => VStr "bars"
    end
  else VStr "wave".

(** [backgroundOpacity]
    ([isOfficialNode ? (properties[opacityStorageKey] ?? 0.2) : 0]). *)
Definition init_opacity (isOfficialNode : bool) (properties : Props) : JsVal :=
  if isOfficialNode then
    match properties !! opacityStorageKey with
    | Some VNull | None => VNum (JFin (1 # 5))
    | Some v => v
    end
  else VNum (JFin 0).

(** [visualizerEnabled]: the saved value when it is a boolean, else [true]. *)
Definition init_enabled (properties : Props) : bool :=
  match properties !! enabledKey with
  | Some (VBool b) => b
  | _ => true
  end.

(** A visualizer: its configuration, its node's properties and its
    capture session. *)
Record Vis := mkVis {
  cfg_mode : JsVal;                 (* this.config.mode *)
  backgroundOpacity : JsVal;        (* this.backgroundOpacity *)
  properties : Props;               (* this.node.properties *)
  world : World
}.

(** [setMode(mode)] ([updateModeMenu] only refreshes the menu's DOM);
    the session keeps whether the mode is ["circular"] for [draw]. *)
Definition setMode (mode : string) (v : Vis) : Vis :=
  if strict_eq_str (cfg_mode v) mode then v
  else
    let w := world v in
    let props := if isOfficialNode w then <[modeStorageKey := VStr mode]> (properties v)
                 else properties v in
    mkVis (VStr mode) (backgroundOpacity v) props
      (switchMode (String.eqb mode "circular") w).

(** [setEnabled(enabled)], with the session part of [Capture.setEnabled]. *)
Definition setEnabled (enabled : bool) (v : Vis) : Vis :=
  let w := world v in
  let props := if isOfficialNode w then <[enabledKey := VBool enabled]> (properties v)
               else properties v in
  mkVis (cfg_mode v) (backgroundOpacity v) props (Capture.setEnabled enabled w).

(** [setBackgroundOpacity(value)], storing the value of
    [Opacity.setBackgroundOpacity]. *)
Definition setBackgroundOpacity (value : option jsnum) (v : Vis) : Vis :=
  let o := Opacity.setBackgroundOpacity value in
  let props := if isOfficialNode (world v) then <[opacityStorageKey := VNum o]> (properties v)
               else properties v in
  mkVis (cfg_mode v) (VNum o) props (world v).

(** [getModeLabel(mode)]: a [switch], hence strict equality. *)
Definition getModeLabel (mode : JsVal) : string :=
  if strict_eq_str mode "wave" then "Waveform"
  else if strict_eq_str mode "bars" then "Spectral Bars"
  else if strict_eq_str mode "circular" then "Circular"
  else "Visualizer".

(** The [modes] of [createModeMenu]: value and label of each item. *)
Definition modes : list (string * string) :=
  [("wave", "Waveform"); ("bars", "Spectral Bars"); ("circular", "Circular")].

(** A click on a menu item: [setMode(mode.value)], then
    [label.textContent = mode.label]. Returns the new state and the
    button's label. *)
Definition menu_click (item : string * string) (v : Vis) : Vis * string :=
  (setMode (fst item) v, snd item).

End Persist.

(* ------------------------------------------------------------------ *)
(** ** [hexToRgba] and the [parseInt(_, 16)] it relies on *)

Module Colors.
Import AudioUrl.
Local Open Scope string_scope.

(** The white space [parseInt] skips (Latin-1 range: TAB, LF, VT, FF,
    CR, space, NBSP). *)
Definition is_ws (c : ascii) : bool :=
  existsb (Nat.eqb (nat_of_ascii c)) [9; 10; 11; 12; 13; 32; 160].

Fixpoint trim_start (s : string) : string :=
  match s with
  | String c rest => if is_ws c then trim_start rest else s
  | EmptyString => EmptyString
  end.

Definition hex_digit (c : ascii) : option nat :=
  let n := nat_of_ascii c in
  if Nat.leb 48 n && Nat.leb n 57 then Some (n - 48)
  else if Nat.leb 97 n && Nat.leb n 102 then Some (n - 87)
  else if Nat.leb 65 n && Nat.leb n 70 then Some (n - 55)
  else None.

(** The value of the longest prefix of hex digits ([None]: no digit). *)
Fixpoint hex_value (s : string) (acc : option nat) : option nat :=
  match s with
  | EmptyString => acc
  | String c rest =>
      match hex_digit c with
      | Some d => hex_value rest (Some (16 * default 0 acc + d))
      | None => acc
      end
  end.

(** [parseInt(s, 16)]; [None] is [NaN]. *)
Definition parseInt16 (s : string) : option Z :=
  let s1 := trim_start s in
  let '(sign, s2) :=
    match s1 with
    | String c rest =>
        if Ascii.eqb c "-" then ((-1)%Z, rest)
        else if Ascii.eqb c "+" then (1%Z, rest) else (1%Z, s1)
    | EmptyString => (1%Z, s1)
    end in
  let s3 :=
    match s2 with
    | String z (String x rest) =>
        if Ascii.eqb z "0" && (Ascii.eqb x "x" || Ascii.eqb x "X") then rest else s2
    | _ => s2
    end in
  option_map (fun n => (sign * Z.of_nat n)%Z) (hex_value s3 None).

(** [`${n}`] for an integer or [NaN] ([-0] prints as ["0"]). *)
Definition number_text (n : option Z) : string :=
  match n with
  | Some z => NilZero.string_of_int (Z.to_int z)
  | None => "NaN"
  end.

(** [hexToRgba(hex, alpha)], with [alpha] given by its text [String(alpha)];
    [hex.slice(a, b)] for [0 <= a <= b] is [substring2 hex a b]. *)
Definition hexToRgba (hex : string) (alpha : string) : string :=
  let r := parseInt16 (substring2 hex 1 3) in
  let g := parseInt16 (substring2 hex 3 5) in
  let b := parseInt16 (substring2 hex 5 7) in
  "rgba(" ++ number_text r ++ ", " ++ number_text g ++ ", " ++ number_text b ++ ", "
    ++ alpha ++ ")".

End Colors.

(* ------------------------------------------------------------------ *)
(** ** Canvas sizes: the [onResize] handler and the background image *)

Module Sizing.
Import Tick.
Local Open Scope Q_scope.

(** The [requestAnimationFrame] callback installed by [createCanvasWidget]
    as [node.onResize]: the new [(canvas.width, canvas.height)] from the
    target element's rect. *)
Definition onResize (isOfficialNode : bool) (rect_width rect_height : Q)
    (width height : nat) : nat * nat :=
  if Qlt_le_dec 0 rect_width then
    if Qlt_le_dec 0 rect_height then
      (to_uint (Qmax 400 (rect_width - (if isOfficialNode then 30 else 20))),
       to_uint (Qmax 200 (if isOfficialNode then rect_height - 30
                          else Qmin 300 (rect_height * (3 # 10)))))
    else (width, height)
  else (width, height).

(** [Math.round]. *)
Definition js_round (q : Q) : Z := Qfloor (q + (1 # 2)).

(** [createImageCanvasFromDataUrl(dataUrl, maxSize)]: the size of the
    canvas drawn from an image of [img_width x img_height]. For an empty
    image [maxSize / 0] is [Infinity] and the scale is [1]. *)
Definition scaled_canvas_size (maxSize : positive) (img_width img_height : nat) : nat * nat :=
  let m := Nat.max img_width img_height in
  let scale := if Nat.eqb m 0 then 1
               else Qmin 1 (inject_Z (Zpos maxSize) / inject_Z (Z.of_nat m)) in
  (Nat.max 1 (Z.to_nat (js_round (inject_Z (Z.of_nat img_width) * scale))),
   Nat.max 1 (Z.to_nat (js_round (inject_Z (Z.of_nat img_height) * scale)))).

End Sizing.

(* ------------------------------------------------------------------ *)
(** ** [loadAudio] and the official node's play/pause listeners *)

Module Loader.
Import Capture.

(** [loadAudio(audioUrl)]: [audioUI] is the [audioUI] widget's audio
    element, when there is one. [new Audio(audioUrl)] is a new object, not
    loaded and paused; its [onloadeddata] handler ([initAudioContext], that
    is [connectToAudioElement] on it) is a later [StepConnect], and its
    [onerror] handler only draws the placeholder. *)
Definition loadAudio (audioUI : option nat) (audioUrl : string) (w : World) : World :=
  if isOfficialNode w then w
  else
    let w1 := cleanup w in
    match audioUI with
    | Some e => connectToAudioElement e w1
    | None =>
        let e := fresh (dom (elems w1)) in
        let w2 := set_elem w1 e (mkElem 0 true audioUrl 0 None 0) in
        set_audio w2 (with_element (audio w2) (Some e))
    end.

(** [onPlay] and [onStop] of [setupOfficialAudioUI] ("play"; "pause"
    and "ended"). *)
Definition onPlay (e : nat) (w : World) : World :=
  if visualizerEnabled w then connectToAudioElement e w else w.

Definition onStop (w : World) : World :=
  if visualizerEnabled w then stopVisualization w else w.

(** [destroy()], called by the node's [onRemoved]. *)
Definition destroy (w : World) : World := cleanup w.

End Loader.

(* ------------------------------------------------------------------ *)
(** ** A tick of [draw()] with the renderer's canvas calls *)

Module TickExn.
Import Frame Render Tick.
Local Open Scope Q_scope.

(** The canvas calls of the renderer [draw()] dispatches to. *)
Definition render_ops (m : Mode) (data : list Z) (WIDTH HEIGHT : Q) (bufferLength : nat)
  : list CanvasOp :=
  match m with
  | WAVE => drawWave data WIDTH HEIGHT bufferLength
  | BARS => drawBars data WIDTH HEIGHT bufferLength
  | CIRCULAR => drawCircular data WIDTH HEIGHT bufferLength
  | OTHER_MODE => []
  end.

(** [ctx.arc] throws an [IndexSizeError] on a negative radius; the path,
    stroke and rectangle calls do not throw. *)
Definition op_throws (op : CanvasOp) : bool :=
  match op with
  | CenterDisc r => negb (Qle_bool 0 r)
  | _ => false
  end.

(** Does a tick reach [this.animationFrameId = requestAnimationFrame(...)],
    which follows the renderer? [data] is what the analyser returns. *)
Definition tick_reschedules (t : TickIn) (data : list Z) : bool :=
  let out := Tick.draw t in
  rescheduled out &&
  negb (existsb op_throws
          (render_ops (mode t) data (inject_Z (Z.of_nat (new_width out)))
             (inject_Z (Z.of_nat (new_height out))) (bin_count t))).

End TickExn.

(* ------------------------------------------------------------------ *)
(** ** Further invariants of the session and of the saved settings *)

Module SessionInv.
Import Capture Persist.

(** The visualizer is only initialized with an analyser. *)
Definition init_inv (w : World) : Prop :=
  isInitialized (audio w) = true -> is_set (analyser (audio w)) = true.

(** Nothing initialized, no analyser, no frame pending. *)
Definition unsup_state (w : World) : Prop :=
  isInitialized (audio w) = false /\ analyser (audio w) = None /\ pending w = [].

(** An official node: what a new [AudioVisualizer] reads back from the
    node's properties is the live mode, opacity and enabled flag. *)
Definition restored_consistent (v : Vis) : Prop :=
  init_mode true (properties v) = cfg_mode v /\
  init_opacity true (properties v) = backgroundOpacity v /\
  init_enabled (properties v) = visualizerEnabled (world v).

End SessionInv.

(* ================================================================== *)
(** * Properties *)

Module FrameFacts.
Import Analyser Frame.

Lemma fill_from_repeat (m i k : nat) (src : nat -> Z) :
  i + m <= k -> fill_from k src i (new_Uint8Array m) = map src (seq i m).
Proof.
  revert i. induction m as [|m IH]; intros i Hle; [reflexivity|].
  unfold new_Uint8Array in *. simpl.
  replace (Nat.ltb i k) with true by (symmetry; apply Nat.ltb_lt; lia).
  f_equal. apply IH. lia.
Qed.

Lemma half_le (n : nat) : Nat.div n 2 <= n.
Proof. apply Nat.Div0.div_le_upper_bound. lia. Qed.

(** C1 (counterexample): with the valid size 2048 the time-domain read
    used by the Wave renderer yields 1024 bytes, not 2048. *)
Lemma C1_time_domain_read_is_half :
  valid_fftSize 2048 = true /\
  length (frame_buffer WAVE (mkAnalyser 2048) (fun _ => 128%Z) (fun _ => 0%Z)) = 1024%nat /\
  length (frame_buffer WAVE (mkAnalyser 2048) (fun _ => 128%Z) (fun _ => 0%Z)) <> 2048%nat.
Proof. vm_compute. split; [reflexivity | split; [reflexivity | discriminate]]. Qed.

(** C1 (amended): for every fftSize the frame buffer has
    [frequencyBinCount = fftSize/2] bytes; the frequency read (Bars,
    Circular) fills all [fftSize/2] bins and the time-domain read (Wave)
    fills it with the first [fftSize/2] samples of the window. *)
Theorem C1_frame_buffer_half_window (n : nat) (td fd : nat -> Z) :
  frame_buffer BARS (mkAnalyser n) td fd = map fd (seq 0 (Nat.div n 2)) /\
  frame_buffer CIRCULAR (mkAnalyser n) td fd = map fd (seq 0 (Nat.div n 2)) /\
  frame_buffer WAVE (mkAnalyser n) td fd = map td (seq 0 (Nat.div n 2)) /\
  length (frame_buffer BARS (mkAnalyser n) td fd) = Nat.div n 2 /\
  length (frame_buffer WAVE (mkAnalyser n) td fd) = Nat.div n 2.
Proof.
  assert (Hf : frame_buffer BARS (mkAnalyser n) td fd = map fd (seq 0 (Nat.div n 2))).
  { apply fill_from_repeat. unfold frequencyBinCount. cbn [fftSize]. lia. }
  assert (Ht : frame_buffer WAVE (mkAnalyser n) td fd = map td (seq 0 (Nat.div n 2))).
  { apply fill_from_repeat. pose proof (half_le n). unfold frequencyBinCount. cbn [fftSize]. lia. }
  split; [exact Hf|]. split; [exact Hf|]. split; [exact Ht|].
  rewrite Hf, Ht, !length_map, !length_seq. split; reflexivity.
Qed.

End FrameFacts.

Module CircularFacts.
Import Render.

Lemma circular_index_bound (bl i : nat) :
  1 <= bl -> i < barsToDraw -> i * circular_step bl <= bl - 1.
Proof.
  intros Hbl Hi. unfold circular_step, barsToDraw in *.
  pose proof (Nat.Div0.mul_div_le bl 180) as Hm.
  destruct (Nat.div bl 180) as [|q] eqn:Hq; [lia|].
  assert (i * S q <= 179 * S q) by (apply Nat.mul_le_mono_r; lia).
  lia.
Qed.

(** C3: Circular samples exactly 180 bins at stride [floor(bufferLength/180)];
    for [bufferLength >= 1] every sampled index is at most
    [bufferLength - 1], so every sample of a buffer of that length is
    defined; [bufferLength = 1024] gives stride 5. *)
Theorem C3_circular_indices_in_range (bl : nat) (Hbl : 1 <= bl) :
  length (circular_indices bl) = 180 /\
  circular_indices bl = map (fun i => i * Nat.div bl 180) (seq 0 180) /\
  (forall j, In j (circular_indices bl) -> j <= bl - 1) /\
  (forall data : list Z, length data = bl ->
     forall j, In j (circular_indices bl) -> byte_at data j <> None) /\
  circular_step 1024 = 5.
Proof.
  assert (Hin : forall j, In j (circular_indices bl) -> j <= bl - 1).
  { intros j Hj. unfold circular_indices in Hj. apply in_map_iff in Hj.
    destruct Hj as [i [<- Hi]]. apply in_seq in Hi.
    apply circular_index_bound; [exact Hbl | unfold barsToDraw in *; lia]. }
  split; [unfold circular_indices; rewrite length_map, length_seq; reflexivity|].
  split; [reflexivity|].
  split; [exact Hin|].
  split; [|reflexivity].
  intros data Hlen j Hj. unfold byte_at.
  destruct (nth_error data j) eqn:E; [discriminate|].
  apply nth_error_None in E. specialize (Hin j Hj). lia.
Qed.

Lemma C3_witness :
  1 <= 1024 /\ length (circular_indices 1024) = 180 /\ circular_step 1024 = 5.
Proof.
  split; [lia|].
  destruct (C3_circular_indices_in_range 1024 ltac:(lia)) as [H1 [_ [_ [_ H5]]]].
  split; [exact H1 | exact H5].
Defined.

End CircularFacts.

Module OpacityFacts.
Local Open Scope Q_scope.
Import Opacity SpecHelpers.

Lemma clamp_bounds (q : Q) : 0 <= Qmax 0 (Qmin (1 # 2) q) <= 1 # 2.
Proof.
  destruct (Q.min_spec (1 # 2) q) as [[H1 H2]|[H1 H2]];
  destruct (Q.max_spec 0 (Qmin (1 # 2) q)) as [[H3 H4]|[H3 H4]];
  rewrite H4; lra.
Qed.

Lemma stored_opacity_bounds (v : option jsnum) :
  exists q, setBackgroundOpacity v = JFin q /\ 0 <= q <= 1 # 2.
Proof.
  destruct v as [[q| | |]|]; cbn;
  try (destruct (Qeq_bool q 0));
  eexists; (split; [reflexivity|]);
  first [apply clamp_bounds | split; apply Qle_bool_imp_le; reflexivity].
Qed.

(** C4: whatever [setBackgroundOpacity] receives (a number, NaN, an
    infinity or nothing) it stores a finite value in [0, 0.5], namely
    [max(0, min(0.5, v))] for finite [v], 0.5 for +inf and 0 for -inf,
    NaN and an absent value; e.g. 0.9 stores 0.5 and -1 stores 0. *)
Theorem C4_opacity_clamped (v : option jsnum) :
  exists q, setBackgroundOpacity v = JFin q /\ q == clamp_spec v /\ 0 <= q <= 1 # 2.
Proof.
  destruct v as [[q| | |]|]; cbn;
  try solve [eexists; split; [reflexivity|];
             split; [apply Qeq_bool_iff; reflexivity
                    | split; apply Qle_bool_imp_le; reflexivity]].
  destruct (Qeq_bool q 0) eqn:E; cbn.
  - apply Qeq_bool_iff in E.
    eexists; split; [reflexivity|]. split; [|apply clamp_bounds].
    destruct (Q.min_spec (1 # 2) 0) as [[H1 H2]|[H1 H2]];
    destruct (Q.min_spec (1 # 2) q) as [[H3 H4]|[H3 H4]];
    try lra; rewrite H2, H4;
    destruct (Q.max_spec 0 0) as [[H5 H6]|[H5 H6]];
    destruct (Q.max_spec 0 q) as [[H7 H8]|[H7 H8]]; lra.
  - eexists; split; [reflexivity|]. split; [reflexivity|apply clamp_bounds].
Qed.

(** C9 (counterexample): with a background image and stored opacity 0
    the overlay is drawn at alpha 0.05, not 0. *)
Lemma C9_image_alpha_not_opacity :
  exists a, renderBackground true 0 800 200 = [BgFill 800 200; BgImage a] /\ ~ a == 0.
Proof.
  eexists; split; [reflexivity|]. vm_compute. discriminate.
Qed.

(** C9 (amended): with a background image, for every value the setter
    can have stored, the overlay is drawn at alpha = opacity + 0.05. *)
Theorem C9_image_alpha_offset (v : option jsnum) (W H : Q) :
  exists q a, setBackgroundOpacity v = JFin q /\
    renderBackground true q W H = [BgFill W H; BgImage a] /\ a == q + (1 # 20).
Proof.
  destruct (stored_opacity_bounds v) as [q [Hq Hb]].
  exists q, (Qmax 0 (Qmin 1 (q + (1 # 20)))). split; [exact Hq|]. split; [reflexivity|].
  destruct (Q.min_spec 1 (q + (1 # 20))) as [[H1 H2]|[H1 H2]]; try lra.
  rewrite H2.
  destruct (Q.max_spec 0 (q + (1 # 20))) as [[H3 H4]|[H3 H4]]; lra.
Qed.

End OpacityFacts.

Module SilenceFacts.
Local Open Scope Q_scope.
Import Render SpecHelpers TickExn CircularFacts.

Lemma wave_primary_safe (H sw : Q) (data : list Z) (i : nat) (x : Q) :
  existsb op_throws (wave_primary H sw data i x) = false.
Proof.
  revert i x. induction data as [|d rest IH]; intros i x; [reflexivity|].
  cbn [wave_primary existsb]. rewrite IH. destruct (Nat.eqb i 0); reflexivity.
Qed.

Lemma wave_secondary_safe (H sw : Q) (data : list Z) (bl fuel i : nat) (x : Q) :
  existsb op_throws (wave_secondary H sw data bl fuel i x) = false.
Proof.
  revert i x. induction fuel as [|fuel IH]; intros i x; [reflexivity|].
  cbn [wave_secondary]. destruct (Nat.ltb i bl); [|reflexivity].
  cbn [existsb]. rewrite IH. destruct (Nat.eqb i 0); reflexivity.
Qed.

Lemma bars_loop_safe (W H bw : Q) (data : list Z) (x : Q) :
  existsb op_throws (bars_loop W H bw data x) = false.
Proof.
  revert x. induction data as [|d rest IH]; intros x; [reflexivity|].
  cbn [bars_loop existsb]. destruct (Qle_bool (x + bw + 1) W); [apply IH | reflexivity].
Qed.

Lemma radial_safe (f : nat -> list CanvasOp) (l : list nat) :
  (forall i, existsb op_throws (f i) = false) -> existsb op_throws (flat_map f l) = false.
Proof.
  intros Hf. induction l as [|i l IH]; [reflexivity|].
  cbn [flat_map]. rewrite existsb_app, Hf, IH. reflexivity.
Qed.









End SilenceFacts.

Module TickFacts.
Local Open Scope Q_scope.
Import Frame Tick.




End TickFacts.

Module UrlFacts.
Local Open Scope string_scope.
Import AudioUrl SpecHelpers.

Lemma last_index_cases (c : ascii) (s : string) :
  (str_has c s = false /\ forall i acc, last_index_from c s i acc = acc) \/
  (exists pre post, s = pre ++ String c post /\ str_has c post = false /\
     forall i acc, last_index_from c s i acc = Z.of_nat (i + String.length pre)).
Proof.
  induction s as [|a s IH].
  - left. split; [reflexivity | intros; reflexivity].
  - destruct IH as [[Hn Hl]|[pre [post [Hs [Hn Hl]]]]].
    + destruct (Ascii.eqb a c) eqn:E.
      * right. apply Ascii.eqb_eq in E. subst a.
        exists EmptyString, s. split; [reflexivity|]. split; [exact Hn|].
        intros i acc. cbn. rewrite Ascii.eqb_refl, Hl. f_equal. lia.
      * left. split; [cbn; rewrite E; exact Hn|].
        intros i acc. cbn. rewrite E. apply Hl.
    + right. exists (String a pre), post. split; [rewrite Hs; reflexivity|].
      split; [exact Hn|]. intros i acc. cbn [last_index_from]. rewrite Hl.
      cbn [String.length]. f_equal. lia.
Qed.

Lemma str_drop_app (pre post : string) :
  str_drop (String.length pre) (pre ++ post) = post.
Proof. induction pre as [|a pre IH]; [reflexivity | exact IH]. Qed.

Lemma str_take_app (pre post : string) :
  str_take (String.length pre) (pre ++ post) = pre.
Proof.
  induction pre as [|a pre IH]; [reflexivity|].
  simpl. rewrite IH. reflexivity.
Qed.

(** C10: [getAudioUrl] splits at the last '/': without a '/', the
    filename is the whole input and the subfolder empty; otherwise the
    subfolder is the text before the last '/' and the filename the text
    after it (itself free of '/'), so subfolder ++ "/" ++ filename is the
    input. *)
Theorem C10_split_at_last_slash (s : string) :
  let '(filename, subfolder) := split_audio_value s in
  (str_has slash s = false /\ filename = s /\ subfolder = "") \/
  (str_has slash s = true /\ s = subfolder ++ String slash filename /\
   str_has slash filename = false).
Proof.
  unfold split_audio_value, lastIndexOf.
  destruct (last_index_cases slash s) as [[Hn Hl]|[pre [post [Hs [Hn Hl]]]]].
  - rewrite Hl. cbn. left. split; [exact Hn | split; reflexivity].
  - rewrite Hl. cbn [Nat.add].
    destruct (Z.eqb (Z.of_nat (String.length pre)) (-1)) eqn:E; [apply Z.eqb_eq in E; lia|].
    right. rewrite Nat2Z.id.
    unfold substring1, substring2. rewrite Nat.sub_0_r. change (str_drop 0 s) with s.
    assert (Hd : str_drop (S (String.length pre)) s = post).
    { rewrite Hs. clear. induction pre as [|a pre IH]; [reflexivity | exact IH]. }
    assert (Ht : str_take (String.length pre) s = pre).
    { rewrite Hs. apply str_take_app. }
    rewrite Hd, Ht. split; [|split; [exact Hs | exact Hn]].
    rewrite Hs. clear. induction pre as [|a pre IH]; [reflexivity|].
    simpl. rewrite IH. apply orb_true_r.
Qed.

End UrlFacts.

Module LoopFacts.
Import Capture CaptureInv.

Lemma loop_inv_idle (w : World) : pending w = [] -> loop_inv w.
Proof. intros H. left. exact H. Qed.

Lemma loop_mono_inv (w w' : World) : loop_inv w -> loop_mono w w' -> loop_inv w'.
Proof.
  intros [H|[id [Hp [Ha [Hn [Hi [Hs Hc]]]]]]] [Ep [Ea [En [Ec [Ei Es]]]]].
  - left. rewrite Ep. exact H.
  - right. exists id. rewrite Ep, Ea, Ec. repeat split; auto. lia.
Qed.

Lemma stop_pending (w : World) : loop_inv w -> pending (stopVisualization w) = [].
Proof.
  intros [H|[id [Hp [Ha _]]]]; unfold stopVisualization.
  - destruct (animationFrameId w); [cbn; rewrite H; reflexivity | exact H].
  - rewrite Ha. cbn. rewrite Hp. cbn. rewrite Nat.eqb_refl. reflexivity.
Qed.

Lemma stop_idempotent (w : World) :
  stopVisualization (stopVisualization w) = stopVisualization w.
Proof.
  unfold stopVisualization. destruct (animationFrameId w) eqn:E; cbn;
    try rewrite E; reflexivity.
Qed.

Lemma stop_keeps (w : World) :
  audio (stopVisualization w) = audio w /\ next_id (stopVisualization w) = next_id w /\
  has_ctx (stopVisualization w) = has_ctx w /\ elems (stopVisualization w) = elems w.
Proof. unfold stopVisualization. destruct (animationFrameId w); repeat split. Qed.

Lemma draw_inv (w : World) :
  pending w = [] -> isInitialized (audio w) = true -> loop_inv (draw w).
Proof.
  intros Hp Hi. unfold draw.
  destruct (has_ctx w) eqn:Hc; [destruct (is_set (analyser (audio w))) eqn:Ha|];
    cbn; [|left; exact Hp|left; exact Hp].
  destruct (circular w && small_canvas w); [left; exact Hp|].
  right. exists (next_id w). rewrite Hp. repeat split; auto.
Qed.

Lemma start_inv (w : World) : loop_inv w -> loop_inv (startVisualization w).
Proof.
  intros H. unfold startVisualization.
  destruct (isInitialized (audio w)) eqn:Hi; cbn; [|exact H].
  destruct (is_set (analyser (audio w))); cbn; [|exact H].
  destruct (has_ctx w); [|exact H].
  destruct (stop_keeps w) as [Ea _].
  apply draw_inv; [apply stop_pending; exact H | rewrite Ea; exact Hi].
Qed.

Lemma cleanup_pending (w : World) : pending (cleanup w) = pending (stopVisualization w).
Proof.
  unfold cleanup, close_context.
  repeat (case_match; cbn); reflexivity.
Qed.

Lemma cleanup_inv (w : World) : loop_inv w -> loop_inv (cleanup w).
Proof. intros H. left. rewrite cleanup_pending. apply stop_pending, H. Qed.

Lemma initContext_inv (e : nat) (w : World) : loop_inv w -> loop_inv (initContext e w).
Proof.
  intros H. unfold initContext, close_context.
  repeat (case_match; simplify_eq/=);
    try apply start_inv;
    (eapply loop_mono_inv; [exact H|]);
    unfold loop_mono; cbn; repeat split; auto; lia.
Qed.

Lemma mono_with_element (w : World) (x : option nat) :
  loop_mono w (set_audio w (with_element (audio w) x)).
Proof. unfold loop_mono; cbn; repeat split; auto. Qed.

Lemma mono_set_tasks (w : World) (t : list Task) : loop_mono w (set_tasks w t).
Proof. unfold loop_mono; cbn; repeat split; auto. Qed.

Lemma mono_set_elem (w : World) (e : nat) (el : Elem) : loop_mono w (set_elem w e el).
Proof. unfold loop_mono; cbn; repeat split; auto. Qed.

Lemma mono_set_enabled (w : World) (b : bool) : loop_mono w (set_enabled w b).
Proof. unfold loop_mono; cbn; repeat split; auto. Qed.

Lemma mono_set_circular (w : World) (b : bool) : loop_mono w (set_circular w b).
Proof. unfold loop_mono; cbn; repeat split; auto. Qed.

Lemma mono_set_small_canvas (w : World) (b : bool) : loop_mono w (set_small_canvas w b).
Proof. unfold loop_mono; cbn; repeat split; auto. Qed.

Lemma switchMode_inv (circ : bool) (w : World) : loop_inv w -> loop_inv (switchMode circ w).
Proof.
  intros H. unfold switchMode.
  assert (H1 : loop_inv (set_circular w circ))
    by (eapply loop_mono_inv; [exact H | apply mono_set_circular]).
  destruct (isInitialized _); [apply start_inv, H1 | exact H1].
Qed.

Lemma connect_inv (e : nat) (w : World) :
  loop_inv w -> loop_inv (connectToAudioElement e w).
Proof.
  intros H. unfold connectToAudioElement.
  destruct (visualizerEnabled w); cbn [negb]; [|exact H].
  destruct (opt_nat_eqb (audioElement (audio w)) (Some e) && isInitialized (audio w)).
  { destruct (is_set (animationFrameId w)); [exact H | apply start_inv, H]. }
  set (w1 := if opt_nat_eqb (audioElement (audio w)) (Some e) then w else cleanup w).
  assert (H1 : loop_inv w1).
  { unfold w1. destruct (opt_nat_eqb _ _); [exact H | apply cleanup_inv, H]. }
  clearbody w1.
  assert (H2 : loop_inv (set_audio w1 (with_element (audio w1) (Some e))))
    by (eapply loop_mono_inv; [exact H1 | apply mono_with_element]).
  destruct (Nat.leb 2 _); [apply initContext_inv, H2|].
  assert (H3 : loop_inv (set_tasks (set_audio w1 (with_element (audio w1) (Some e)))
          (tasks (set_audio w1 (with_element (audio w1) (Some e))) ++ [TLoaded e])))
    by (eapply loop_mono_inv; [exact H2 | apply mono_set_tasks]).
  destruct (negb _); [|exact H3].
  eapply loop_mono_inv; [exact H3 | apply mono_set_tasks].
Qed.

Lemma fire_frame_inv (id : nat) (w : World) :
  loop_inv w -> In id (pending w) -> loop_inv (fire_frame id w).
Proof.
  intros [H|[id0 [Hp [Ha [Hn [Hi [Hs Hc]]]]]]] Hin.
  - rewrite H in Hin. destruct Hin.
  - rewrite Hp in Hin. destruct Hin as [<-|[]].
    unfold fire_frame. apply draw_inv; cbn; [rewrite Hp; cbn; rewrite Nat.eqb_refl; reflexivity | exact Hi].
Qed.

Lemma fire_timeout_inv (e : nat) (w : World) : loop_inv w -> loop_inv (fire_timeout e w).
Proof.
  intros H. unfold fire_timeout.
  assert (H1 : loop_inv (set_tasks w (remove_task (TTimeout e) (tasks w))))
    by (eapply loop_mono_inv; [exact H | apply mono_set_tasks]).
  destruct (_ && _); [apply initContext_inv, H1 | exact H1].
Qed.

Lemma setEnabled_inv (b : bool) (w : World) : loop_inv w -> loop_inv (setEnabled b w).
Proof.
  intros H. unfold setEnabled.
  assert (H1 : loop_inv (set_enabled w b))
    by (eapply loop_mono_inv; [exact H | apply mono_set_enabled]).
  destruct b; [exact H1 | apply cleanup_inv, H1].
Qed.

Lemma step_loop_inv (w w' : World) : loop_inv w -> step w w' -> loop_inv w'.
Proof.
  intros H Hs.
  destruct Hs as [e w|b w|w|w|w|id w Hin|e w Hin Hr|e w Hin|e r p s0 t w|c w|b w].
  - apply connect_inv, H.
  - apply setEnabled_inv, H.
  - apply start_inv, H.
  - left. apply stop_pending, H.
  - apply cleanup_inv, H.
  - apply fire_frame_inv; assumption.
  - apply initContext_inv. eapply loop_mono_inv; [exact H | apply mono_set_tasks].
  - apply fire_timeout_inv, H.
  - eapply loop_mono_inv; [exact H | apply mono_set_elem].
  - apply switchMode_inv, H.
  - eapply loop_mono_inv; [exact H | apply mono_set_small_canvas].
Qed.

Lemma reachable_loop_inv (w : World) : reachable w -> loop_inv w.
Proof.
  induction 1 as [en off c sup|w w' _ IH Hs].
  - left. reflexivity.
  - eapply step_loop_inv; eassumption.
Qed.

End LoopFacts.

Module SpliceFacts.
Import Capture CaptureInv.

Lemma splice_elems (w w' : World) : elems w' = elems w -> splice_inv w -> splice_inv w'.
Proof. intros E H e. unfold get_elem. rewrite E. apply H. Qed.

Lemma splice_insert (w w' : World) (e : nat) (el : Elem) :
  elems w' = <[e := el]> (elems w) -> splice_inv w ->
  (_audioVisualizerSource el = None /\ mes_calls el = 0) \/
  (is_set (_audioVisualizerSource el) = true /\ mes_calls el = 1) ->
  splice_inv w'.
Proof.
  intros E H Hel e'. unfold get_elem. rewrite E, lookup_insert.
  destruct (decide (e = e')); [exact Hel | apply H].
Qed.

Lemma start_elems (w : World) : elems (startVisualization w) = elems w.
Proof.
  unfold startVisualization, draw, stopVisualization.
  repeat case_match; reflexivity.
Qed.

Lemma start_splice (w : World) : splice_inv w -> splice_inv (startVisualization w).
Proof. apply splice_elems, start_elems. Qed.

Lemma cleanup_elems (w : World) :
  elems (cleanup w) =
    if isOfficialNode w then elems w
    else match audioElement (audio w) with
         | Some e =>
             <[e := mkElem 0 true EmptyString 0 (_audioVisualizerSource (get_elem w e))
                      (mes_calls (get_elem w e))]> (elems w)
         | None => elems w
         end.
Proof.
  unfold cleanup, close_context, stopVisualization, get_elem.
  repeat (case_match; simplify_eq/=); reflexivity.
Qed.

Lemma cleanup_splice (w : World) : splice_inv w -> splice_inv (cleanup w).
Proof.
  intros H. pose proof (cleanup_elems w) as E.
  destruct (isOfficialNode w); [eapply splice_elems; [exact E | exact H]|].
  destruct (audioElement (audio w)) as [e|]; [|eapply splice_elems; [exact E | exact H]].
  eapply splice_insert; [exact E | exact H |]. cbn. apply H.
Qed.

Lemma initContext_splice (e : nat) (w : World) :
  splice_inv w -> splice_inv (initContext e w).
Proof.
  intros H. pose proof (H e) as He. unfold initContext, close_context.
  repeat (case_match; simplify_eq/=); try apply start_splice;
    unfold get_elem in *; cbn in *;
    try (destruct (mes_calls (default fresh_elem (elems w !! e))) eqn:Hc; cbn in * );
    first
      [ eapply splice_elems; [reflexivity | exact H]
      | eapply splice_insert; [reflexivity | exact H |];
        right; cbn; split; [reflexivity | lia]
      | exfalso; destruct He as [[A B]|[A B]];
        [ lia
        | match goal with Hm : _audioVisualizerSource _ = None |- _ => rewrite Hm in A end;
          discriminate ] ].
Qed.

Lemma connect_splice (e : nat) (w : World) :
  splice_inv w -> splice_inv (connectToAudioElement e w).
Proof.
  intros H. unfold connectToAudioElement.
  destruct (visualizerEnabled w); cbn [negb]; [|exact H].
  destruct (opt_nat_eqb (audioElement (audio w)) (Some e) && isInitialized (audio w)).
  { destruct (is_set (animationFrameId w)); [exact H | apply start_splice, H]. }
  set (w1 := if opt_nat_eqb (audioElement (audio w)) (Some e) then w else cleanup w).
  assert (H1 : splice_inv w1).
  { unfold w1. destruct (opt_nat_eqb _ _); [exact H | apply cleanup_splice, H]. }
  clearbody w1.
  assert (H2 : splice_inv (set_audio w1 (with_element (audio w1) (Some e))))
    by (eapply splice_elems; [reflexivity | exact H1]).
  destruct (Nat.leb 2 _); [apply initContext_splice, H2|].
  destruct (negb _); (eapply splice_elems; [reflexivity | exact H2]).
Qed.

Lemma step_splice (w w' : World) : splice_inv w -> step w w' -> splice_inv w'.
Proof.
  intros H Hs.
  destruct Hs as [e w|b w|w|w|w|id w Hin|e w Hin Hr|e w Hin|e r p s0 t w|c w|b w].
  - apply connect_splice, H.
  - unfold setEnabled. destruct b; [eapply splice_elems; [reflexivity | exact H]|].
    apply cleanup_splice. eapply splice_elems; [reflexivity | exact H].
  - apply start_splice, H.
  - eapply splice_elems; [apply LoopFacts.stop_keeps | exact H].
  - apply cleanup_splice, H.
  - unfold fire_frame. eapply splice_elems; [|exact H].
    unfold draw. destruct (_ && _); [destruct (_ && _)|]; reflexivity.
  - apply initContext_splice. eapply splice_elems; [reflexivity | exact H].
  - unfold fire_timeout.
    assert (H1 : splice_inv (set_tasks w (remove_task (TTimeout e) (tasks w))))
      by (eapply splice_elems; [reflexivity | exact H]).
    destruct (_ && _); [apply initContext_splice, H1 | exact H1].
  - eapply splice_insert; [reflexivity | exact H | cbn; apply H].
  - unfold switchMode.
    assert (H1 : splice_inv (set_circular w c)) by (eapply splice_elems; [reflexivity | exact H]).
    destruct (isInitialized _); [apply start_splice, H1 | exact H1].
  - eapply splice_elems; [reflexivity | exact H].
Qed.

Lemma reachable_splice (w : World) : reachable w -> splice_inv w.
Proof.
  induction 1 as [en off c sup|w w' _ IH Hs].
  - intros e. left. split; reflexivity.
  - eapply step_splice; eassumption.
Qed.

End SpliceFacts.

Module CaptureClaims.
Import Capture CaptureInv LoopFacts SpliceFacts.

Lemma sample_world_reachable (official : bool) : reachable (sample_world official).
Proof.
  exact (ReachStep _ _
           (ReachStep _ _ (ReachInit true official true true)
              (StepPlayer 1 4 false "input/a.wav"%string 0 _))
           (StepConnect 1 _)).
Qed.

(** C2 (counterexample): attaching element 1 twice in a row before it
    has loaded is not a no-op: the second call registers a second
    [loadeddata] initialisation (each will build its own AudioContext). *)
Lemma C2_second_attach_before_load :
  isInitialized (audio (connectToAudioElement 1 (init_world true true true true))) = false /\
  animationFrameId (connectToAudioElement 1 (init_world true true true true)) = None /\
  tasks (connectToAudioElement 1 (init_world true true true true)) = [TLoaded 1] /\
  tasks (connectToAudioElement 1 (connectToAudioElement 1 (init_world true true true true)))
    = [TLoaded 1; TLoaded 1].
Proof. vm_compute. repeat split. Qed.

(** Rebinding the element already bound changes nothing. *)
Lemma set_same_element (w : World) (e : nat) :
  audioElement (audio w) = Some e -> set_audio w (with_element (audio w) (Some e)) = w.
Proof.
  destruct w as [en off hc sup [ae ac an so ini] af pe el cl nx ta ci sm]; cbn.
  intros ->. reflexivity.
Qed.

(** C2 (amended): in every reachable state each audio element has had at
    most one [MediaElementSource] created, and it has one exactly when it
    carries the [_audioVisualizerSource] marker; once the visualizer is
    initialized on an element, attaching that element again changes
    nothing except starting the render loop when no frame is scheduled;
    attaching again the bound element while it is neither initialized nor
    loaded ([readyState < 2]) registers one more deferred initialization
    (a [loadeddata] callback, and a retry timer when it is playing) and
    changes nothing else. *)
Theorem C2_single_splice_and_idempotent_attach (w : World) (Hr : reachable w) :
  (forall e, mes_calls (get_elem w e) <= 1 /\
     (_audioVisualizerSource (get_elem w e) = None <-> mes_calls (get_elem w e) = 0)) /\
  (forall e, audioElement (audio w) = Some e -> isInitialized (audio w) = true ->
     connectToAudioElement e w =
       if visualizerEnabled w && negb (is_set (animationFrameId w))
       then startVisualization w else w) /\
  (forall e, visualizerEnabled w = true -> audioElement (audio w) = Some e ->
     isInitialized (audio w) = false -> readyState (get_elem w e) < 2 ->
     connectToAudioElement e w =
       set_tasks w (tasks w ++ TLoaded e :: (if paused (get_elem w e) then [] else [TTimeout e]))).
Proof.
  split; [|split].
  - intros e. destruct (reachable_splice w Hr e) as [[A B]|[A B]].
    + rewrite A, B. split; [lia | split; reflexivity].
    + rewrite B. split; [lia|]. split; [intros E; rewrite E in A; discriminate | discriminate].
  - intros e Ha Hi. unfold connectToAudioElement. rewrite Ha, Hi. cbn [opt_nat_eqb].
    rewrite Nat.eqb_refl. cbn [andb].
    destruct (visualizerEnabled w), (is_set (animationFrameId w)); reflexivity.
  - intros e He Ha Hi Hl. unfold connectToAudioElement. rewrite He, Ha, Hi. cbn [negb opt_nat_eqb].
    rewrite Nat.eqb_refl. cbv beta iota zeta. rewrite (set_same_element w e Ha).
    replace (Nat.leb 2 (readyState (get_elem w e))) with false
      by (symmetry; apply Nat.leb_gt; exact Hl).
    change (get_elem (set_tasks w (tasks w ++ [TLoaded e])) e) with (get_elem w e).
    destruct (paused (get_elem w e)); cbn [negb]; [reflexivity|].
    unfold set_tasks; cbn [tasks]. rewrite <- app_assoc. reflexivity.
Qed.

Lemma C2_witness :
  reachable (sample_world true) /\
  connectToAudioElement 1 (sample_world true) = sample_world true /\
  reachable (connectToAudioElement 1 (init_world true true true true)) /\
  tasks (connectToAudioElement 1 (connectToAudioElement 1 (init_world true true true true)))
    = [TLoaded 1; TLoaded 1].
Proof.
  pose proof (sample_world_reachable true) as Hr.
  split; [exact Hr|].
  destruct (C2_single_splice_and_idempotent_attach (sample_world true) Hr) as [_ [Hid _]].
  split; [rewrite (Hid 1 eq_refl eq_refl); reflexivity|].
  assert (Hr1 : reachable (connectToAudioElement 1 (init_world true true true true)))
    by exact (ReachStep _ _ (ReachInit true true true true) (StepConnect 1 _)).
  split; [exact Hr1|].
  destruct (C2_single_splice_and_idempotent_attach _ Hr1) as [_ [_ Hdef]].
  rewrite (Hdef 1 ltac:(vm_compute; reflexivity) ltac:(vm_compute; reflexivity)
             ltac:(vm_compute; reflexivity) ltac:(vm_compute; lia)).
  vm_compute. reflexivity.
Defined.

(** C6 (counterexample): for a custom node bound to its playing, loaded
    player element, [cleanup] pauses it, clears its [src] and so unloads
    it ([readyState] back to 0). *)
Lemma C6_custom_cleanup_pauses :
  reachable (sample_world false) /\
  paused (get_elem (sample_world false) 1) = false /\
  readyState (get_elem (sample_world false) 1) = 4 /\
  paused (get_elem (cleanup (sample_world false)) 1) = true /\
  src (get_elem (cleanup (sample_world false)) 1) = EmptyString /\
  readyState (get_elem (cleanup (sample_world false)) 1) = 0.
Proof.
  split; [apply sample_world_reachable|]. vm_compute. repeat split.
Qed.

(** C6 (what [cleanup] does): it stops the loop, disconnects and forgets
    the source, closes the audio context, drops the analyser and the
    element reference and clears [isInitialized]. For an official node it
    leaves every audio element as it was (playback, position, loading);
    for a custom node it pauses its bound element and sets its [src] to
    [""], which resets its [readyState] and its position to 0, touching
    nothing else. *)
Theorem C6_cleanup_effect (w : World) :
  elems (cleanup w) =
    (if isOfficialNode w then elems w
     else match audioElement (audio w) with
          | Some e =>
              <[e := mkElem 0 true EmptyString 0 (_audioVisualizerSource (get_elem w e))
                       (mes_calls (get_elem w e))]> (elems w)
          | None => elems w
          end) /\
  animationFrameId (cleanup w) = None /\
  audioElement (audio (cleanup w)) = None /\
  analyser (audio (cleanup w)) = None /\
  source (audio (cleanup w)) = None /\
  isInitialized (audio (cleanup w)) = false /\
  match audioContext (audio w) with
  | Some c => is_closed (cleanup w) c = true
  | None => True
  end.
Proof.
  split; [apply cleanup_elems|].
  unfold cleanup, close_context, stopVisualization, is_closed.
  repeat (case_match; simplify_eq/=); repeat split; try reflexivity;
    try (rewrite Nat.eqb_refl; reflexivity); try assumption.
Qed.

(** C7: in every reachable state at most one animation-frame request is
    pending, and it is the recorded [animationFrameId]; starting cancels
    every request pending before and leaves at most one; stopping leaves
    none and is idempotent. *)
Theorem C7_single_pending_frame (w : World) (Hr : reachable w) :
  length (pending w) <= 1 /\
  Forall (fun id => animationFrameId w = Some id) (pending w) /\
  Forall (fun id => ~ In id (pending (startVisualization w))) (pending w) /\
  length (pending (startVisualization w)) <= 1 /\
  pending (stopVisualization w) = [] /\
  stopVisualization (stopVisualization w) = stopVisualization w.
Proof.
  pose proof (reachable_loop_inv w Hr) as Hinv.
  assert (Hlen : forall w', loop_inv w' -> length (pending w') <= 1).
  { intros w' [E|[id [E _]]]; rewrite E; cbn; lia. }
  split; [apply Hlen, Hinv|].
  split; [|split; [|split; [apply Hlen, start_inv, Hinv
                          | split; [apply stop_pending, Hinv | apply stop_idempotent]]]].
  - destruct Hinv as [E|[id [E [Ha _]]]]; rewrite E; repeat constructor; exact Ha.
  - destruct Hinv as [E|[id [Hp [Ha [Hn [Hi [Hs Hc]]]]]]]; rewrite ?E, ?Hp; [constructor|].
    constructor; [|constructor].
    unfold startVisualization. rewrite Hi, Hs, Hc. cbn [andb].
    destruct (stop_keeps w) as [Ea [En [Ec _]]].
    pose proof (stop_pending w (or_intror (ex_intro _ id
                  (conj Hp (conj Ha (conj Hn (conj Hi (conj Hs Hc)))))))) as Hp0.
    unfold draw. rewrite Ec, Ea, Hs, Hc. cbn [andb].
    destruct (_ && _); cbn [pending set_next set_frame]; rewrite Hp0; [intros []|].
    intros [Heq|[]]. rewrite En in Heq. lia.
Qed.

Lemma C7_witness :
  reachable (sample_world true) /\ length (pending (sample_world true)) <= 1.
Proof.
  pose proof (sample_world_reachable true) as Hr.
  split; [exact Hr|].
  destruct (C7_single_pending_frame (sample_world true) Hr) as [H _]. exact H.
Defined.

End CaptureClaims.

(* ================================================================== *)
(** * Further properties of the code *)

Module SessionFacts.
Import Capture CaptureInv SessionInv LoopFacts SpliceFacts.

Lemma start_keeps (w : World) :
  audio (startVisualization w) = audio w /\
  visualizerEnabled (startVisualization w) = visualizerEnabled w /\
  audio_supported (startVisualization w) = audio_supported w /\
  has_ctx (startVisualization w) = has_ctx w /\
  tasks (startVisualization w) = tasks w.
Proof. unfold startVisualization, draw, stopVisualization. repeat case_match; repeat split. Qed.

Lemma cleanup_keeps (w : World) :
  visualizerEnabled (cleanup w) = visualizerEnabled w /\
  audio_supported (cleanup w) = audio_supported w /\
  isOfficialNode (cleanup w) = isOfficialNode w /\
  has_ctx (cleanup w) = has_ctx w /\
  tasks (cleanup w) = tasks w /\
  analyser (audio (cleanup w)) = None /\
  isInitialized (audio (cleanup w)) = false /\
  animationFrameId (cleanup w) = None.
Proof.
  unfold cleanup, close_context, stopVisualization.
  repeat (case_match; simplify_eq/=); repeat split; assumption.
Qed.

Lemma start_init_inv (w : World) : init_inv w -> init_inv (startVisualization w).
Proof. unfold init_inv. rewrite (proj1 (start_keeps w)). auto. Qed.

Lemma cleanup_init_inv (w : World) : init_inv (cleanup w).
Proof.
  unfold init_inv. destruct (cleanup_keeps w) as [_ [_ [_ [_ [_ [_ [H _]]]]]]].
  rewrite H. discriminate.
Qed.

Lemma initContext_init_inv (e : nat) (w : World) : init_inv w -> init_inv (initContext e w).
Proof.
  intros H. unfold initContext, close_context.
  repeat (case_match; simplify_eq/=); try apply start_init_inv;
    unfold init_inv in *; cbn in *; auto.
Qed.

Lemma step_init_inv (w w' : World) : init_inv w -> step w w' -> init_inv w'.
Proof.
  intros H Hs. destruct Hs as [e w|b w|w|w|w|id w Hin|e w Hin Hr|e w Hin|e r p s0 t w|c w|b w].
  - unfold connectToAudioElement.
    destruct (visualizerEnabled w); cbn [negb]; [|exact H].
    destruct (opt_nat_eqb (audioElement (audio w)) (Some e) && isInitialized (audio w)).
    { destruct (is_set (animationFrameId w)); [exact H | apply start_init_inv, H]. }
    set (w1 := if opt_nat_eqb (audioElement (audio w)) (Some e) then w else cleanup w).
    assert (H1 : init_inv w1).
    { unfold w1. destruct (opt_nat_eqb _ _); [exact H | apply cleanup_init_inv]. }
    clearbody w1.
    destruct (Nat.leb 2 _); [apply initContext_init_inv; exact H1|].
    destruct (negb _); exact H1.
  - unfold setEnabled. destruct b; [exact H | apply cleanup_init_inv].
  - apply start_init_inv, H.
  - unfold init_inv. rewrite (proj1 (stop_keeps w)). exact H.
  - apply cleanup_init_inv.
  - unfold fire_frame, draw. destruct (_ && _); [destruct (_ && _)|]; exact H.
  - apply initContext_init_inv. exact H.
  - unfold fire_timeout. destruct (_ && _); [apply initContext_init_inv|]; exact H.
  - exact H.
  - unfold switchMode. destruct (isInitialized _); [apply start_init_inv|]; exact H.
  - exact H.
Qed.

Lemma reachable_init_inv (w : World) : reachable w -> init_inv w.
Proof.
  induction 1 as [en off c sup|w w' _ IH Hs].
  - discriminate.
  - eapply step_init_inv; eassumption.
Qed.

End SessionFacts.

Module SupportFacts.
Import Capture CaptureInv SessionInv LoopFacts SessionFacts.

Lemma initContext_supported (e : nat) (w : World) :
  audio_supported (initContext e w) = audio_supported w.
Proof.
  unfold initContext, close_context.
  repeat (case_match; simplify_eq/=);
    try match goal with
        | |- context [startVisualization ?x] =>
            destruct (start_keeps x) as [_ [_ [E _]]]; rewrite E
        end;
    reflexivity.
Qed.

Lemma connect_supported (e : nat) (w : World) :
  audio_supported (connectToAudioElement e w) = audio_supported w.
Proof.
  unfold connectToAudioElement.
  destruct (visualizerEnabled w); cbn [negb]; [|reflexivity].
  destruct (opt_nat_eqb (audioElement (audio w)) (Some e) && isInitialized (audio w)).
  { destruct (is_set (animationFrameId w)); [reflexivity | apply start_keeps]. }
  assert (E1 : audio_supported (if opt_nat_eqb (audioElement (audio w)) (Some e) then w else cleanup w)
               = audio_supported w).
  { destruct (opt_nat_eqb _ _); [reflexivity | apply (cleanup_keeps w)]. }
  destruct (Nat.leb 2 _); [rewrite initContext_supported; exact E1|].
  destruct (negb _); exact E1.
Qed.

Lemma step_supported (w w' : World) : step w w' -> audio_supported w' = audio_supported w.
Proof.
  intros Hs. destruct Hs as [e w|b w|w|w|w|id w Hin|e w Hin Hr|e w Hin|e r p s0 t w|c w|b w].
  - apply connect_supported.
  - unfold setEnabled. destruct b; [reflexivity | apply (cleanup_keeps (set_enabled w false))].
  - apply start_keeps.
  - unfold stopVisualization. destruct (animationFrameId w); reflexivity.
  - apply (cleanup_keeps w).
  - unfold fire_frame, draw. destruct (_ && _); [destruct (_ && _)|]; reflexivity.
  - rewrite initContext_supported. reflexivity.
  - unfold fire_timeout. destruct (_ && _); [rewrite initContext_supported|]; reflexivity.
  - reflexivity.
  - unfold switchMode. destruct (isInitialized _); [|reflexivity].
    exact (proj1 (proj2 (proj2 (start_keeps (set_circular w c))))).
  - reflexivity.
Qed.

Lemma unsup_same (w w' : World) :
  audio w' = audio w -> pending w' = pending w -> unsup_state w -> unsup_state w'.
Proof. intros Ea Ep [Hi [Hn Hp]]. unfold unsup_state. rewrite Ea, Ep. auto. Qed.

Lemma initContext_unsup (e : nat) (w : World) :
  audio_supported w = false -> unsup_state w -> unsup_state (initContext e w).
Proof.
  intros Hs. apply unsup_same.
  - unfold initContext, close_context.
    destruct (audioContext (audio w)) as [c|]; [destruct (is_closed w c)|];
      cbn [audio_supported set_closed]; rewrite Hs; reflexivity.
  - unfold initContext, close_context.
    destruct (audioContext (audio w)) as [c|]; [destruct (is_closed w c)|];
      cbn [audio_supported set_closed]; rewrite Hs; reflexivity.
Qed.

Lemma cleanup_unsup (w : World) : unsup_state w -> unsup_state (cleanup w).
Proof.
  intros [_ [_ Hp]]. destruct (cleanup_keeps w) as [_ [_ [_ [_ [_ [Ea [Ei _]]]]]]].
  split; [exact Ei|]. split; [exact Ea|].
  rewrite cleanup_pending. unfold stopVisualization.
  destruct (animationFrameId w); cbn; rewrite Hp; reflexivity.
Qed.

Lemma stop_unsup (w : World) : unsup_state w -> unsup_state (stopVisualization w).
Proof.
  intros [Hi [Hn Hp]]. destruct (stop_keeps w) as [Ea _].
  split; [rewrite Ea; exact Hi|]. split; [rewrite Ea; exact Hn|].
  unfold stopVisualization. destruct (animationFrameId w); cbn; rewrite Hp; reflexivity.
Qed.

Lemma start_unsup (w : World) : unsup_state w -> unsup_state (startVisualization w).
Proof. intros H. unfold startVisualization. destruct H as [Hi H']. rewrite Hi. split; assumption. Qed.

Lemma step_unsup (w w' : World) :
  audio_supported w = false -> unsup_state w -> step w w' -> unsup_state w'.
Proof.
  intros Hs0 H Hs. destruct Hs as [e w|b w|w|w|w|id w Hin|e w Hin Hr|e w Hin|e r p s0 t w|c w|b w].
  - unfold connectToAudioElement.
    destruct (visualizerEnabled w); cbn [negb]; [|exact H].
    destruct H as [Hi Hrest]. rewrite Hi, andb_false_r.
    assert (H : unsup_state w) by (split; assumption).
    set (w1 := if opt_nat_eqb (audioElement (audio w)) (Some e) then w else cleanup w).
    assert (H1 : unsup_state w1 /\ audio_supported w1 = false).
    { unfold w1. destruct (opt_nat_eqb _ _); [split; assumption|].
      split; [apply cleanup_unsup, H | rewrite (proj1 (proj2 (cleanup_keeps w))); exact Hs0]. }
    clearbody w1. destruct H1 as [H1 Hs1].
    assert (H2 : unsup_state (set_audio w1 (with_element (audio w1) (Some e))))
      by (destruct H1 as [A [B C]]; split; [|split]; assumption).
    destruct (Nat.leb 2 _); [apply initContext_unsup; assumption|].
    destruct (negb _); (eapply unsup_same; [reflexivity | reflexivity |]);
      [eapply unsup_same; [reflexivity | reflexivity | exact H2] | exact H2].
  - unfold setEnabled. destruct b; [eapply unsup_same; [reflexivity | reflexivity | exact H]|].
    apply cleanup_unsup. eapply unsup_same; [reflexivity | reflexivity | exact H].
  - apply start_unsup, H.
  - apply stop_unsup, H.
  - apply cleanup_unsup, H.
  - destruct H as [_ [_ Hp]]. rewrite Hp in Hin. destruct Hin.
  - apply initContext_unsup; [exact Hs0|].
    eapply unsup_same; [reflexivity | reflexivity | exact H].
  - unfold fire_timeout.
    assert (H1 : unsup_state (set_tasks w (remove_task (TTimeout e) (tasks w))))
      by (eapply unsup_same; [reflexivity | reflexivity | exact H]).
    destruct (_ && _); [apply initContext_unsup; [exact Hs0 | exact H1] | exact H1].
  - eapply unsup_same; [reflexivity | reflexivity | exact H].
  - unfold switchMode.
    assert (H1 : unsup_state (set_circular w c))
      by (eapply unsup_same; [reflexivity | reflexivity | exact H]).
    destruct (isInitialized _); [apply start_unsup, H1 | exact H1].
  - eapply unsup_same; [reflexivity | reflexivity | exact H].
Qed.

Lemma reachable_unsup (w : World) : reachable w -> audio_supported w = false -> unsup_state w.
Proof.
  induction 1 as [en off c sup|w w' Hr IH Hs]; intros Hsup.
  - split; [reflexivity|]. split; reflexivity.
  - rewrite (step_supported _ _ Hs) in Hsup.
    eapply step_unsup; [exact Hsup | apply IH, Hsup | exact Hs].
Qed.

End SupportFacts.

Module SessionExtras.
Import Capture CaptureInv SessionInv Loader LoopFacts SpliceFacts SessionFacts SupportFacts.

Lemma sample_reachable (official : bool) : reachable (sample_world official).
Proof.
  exact (ReachStep _ _
           (ReachStep _ _ (ReachInit true official true true)
              (StepPlayer 1 4 false "input/a.wav"%string 0 _))
           (StepConnect 1 _)).
Qed.

(** The world reached by attaching a loaded, playing element 1 when
    [window.AudioContext] is missing. *)
Lemma unsupported_sample_reachable :
  reachable (connectToAudioElement 1
     (set_elem (init_world true true true false) 1 (mkElem 4 false "input/a.wav"%string 0 None 0))).
Proof.
  exact (ReachStep _ _
           (ReachStep _ _ (ReachInit true true true false)
              (StepPlayer 1 4 false "input/a.wav"%string 0 _))
           (StepConnect 1 _)).
Qed.

(** X1: in every reachable state the visualizer is only initialized with
    an analyser, and a pending animation-frame request means the render
    loop's guard holds: it is the recorded [animationFrameId], the
    visualizer is initialized, has an analyser and a canvas context. *)
Theorem reachable_frame_guard (w : World) (Hr : reachable w) :
  (isInitialized (audio w) = true -> is_set (analyser (audio w)) = true) /\
  (forall id, In id (pending w) ->
     animationFrameId w = Some id /\ isInitialized (audio w) = true /\
     is_set (analyser (audio w)) = true /\ has_ctx w = true).
Proof.
  split; [apply reachable_init_inv, Hr|].
  intros id Hin. destruct (reachable_loop_inv w Hr) as [E|[id0 [Hp [Ha [_ [Hi [Hs Hc]]]]]]].
  - rewrite E in Hin. destruct Hin.
  - rewrite Hp in Hin. destruct Hin as [<-|[]]. auto.
Qed.

Lemma reachable_frame_guard_witness :
  reachable (sample_world true) /\ isInitialized (audio (sample_world true)) = true /\
  is_set (analyser (audio (sample_world true))) = true.
Proof.
  pose proof (sample_reachable true) as Hr. split; [exact Hr|].
  assert (Hi : isInitialized (audio (sample_world true)) = true) by (vm_compute; reflexivity).
  split; [exact Hi|]. exact (proj1 (reachable_frame_guard _ Hr) Hi).
Defined.

(** X2: without [window.AudioContext], no reachable state has the
    visualizer initialized, an analyser, or an animation frame pending,
    whatever elements are attached, loaded or played. *)
Theorem no_audio_context_no_loop (w : World) (Hr : reachable w) (Hs : audio_supported w = false) :
  isInitialized (audio w) = false /\ analyser (audio w) = None /\ pending w = [].
Proof. exact (reachable_unsup w Hr Hs). Qed.

Lemma no_audio_context_no_loop_witness :
  audio_supported (connectToAudioElement 1
     (set_elem (init_world true true true false) 1 (mkElem 4 false "input/a.wav"%string 0 None 0)))
    = false /\
  isInitialized (audio (connectToAudioElement 1
     (set_elem (init_world true true true false) 1 (mkElem 4 false "input/a.wav"%string 0 None 0))))
    = false.
Proof.
  split; [vm_compute; reflexivity|].
  exact (proj1 (no_audio_context_no_loop _ unsupported_sample_reachable ltac:(vm_compute; reflexivity))).
Defined.

(** X3: on an official node bound to element [e] and initialized,
    pausing (or the end of playback) leaves no frame pending and clears
    [animationFrameId]; playing again reuses the audio graph (same
    context, analyser and source) and restarts the render loop: exactly
    one frame is pending, unless the mode is circular on a canvas under
    40 px, where [draw] throws and no frame is pending. *)
Theorem pause_then_play_resumes (w : World) (e : nat) (Hr : reachable w)
  (He : visualizerEnabled w = true) (Ha : audioElement (audio w) = Some e)
  (Hi : isInitialized (audio w) = true) (Hc : has_ctx w = true) :
  pending (onStop w) = [] /\ animationFrameId (onStop w) = None /\
  audio (onPlay e (onStop w)) = audio w /\
  (if circular w && small_canvas w then
     pending (onPlay e (onStop w)) = [] /\ animationFrameId (onPlay e (onStop w)) = None
   else exists id, pending (onPlay e (onStop w)) = [id] /\
                   animationFrameId (onPlay e (onStop w)) = Some id).
Proof.
  pose proof (reachable_loop_inv w Hr) as Hl.
  pose proof (reachable_init_inv w Hr Hi) as Hn.
  assert (Ef : animationFrameId (stopVisualization w) = None).
  { unfold stopVisualization. destruct (animationFrameId w) eqn:E; [reflexivity | exact E]. }
  destruct (stop_keeps w) as [Ea [En [Ec _]]].
  assert (Ee : visualizerEnabled (stopVisualization w) = true).
  { unfold stopVisualization. destruct (animationFrameId w); exact He. }
  assert (Em : circular (stopVisualization w) && small_canvas (stopVisualization w)
               = circular w && small_canvas w).
  { unfold stopVisualization. destruct (animationFrameId w); reflexivity. }
  pose proof (stop_pending w Hl) as Hp.
  assert (Estop : onStop w = stopVisualization w) by (unfold onStop; rewrite He; reflexivity).
  assert (Eplay : onPlay e (onStop w) = draw (stopVisualization w)).
  { unfold onPlay. rewrite Estop, Ee. unfold connectToAudioElement. rewrite Ee. cbn [negb].
    rewrite Ea, Ha, Hi. cbn [opt_nat_eqb]. rewrite Nat.eqb_refl. cbn [andb].
    rewrite Ef. cbn [is_set].
    unfold startVisualization. rewrite Ea, Hi, Hn, Ec, Hc. cbn [andb].
    rewrite stop_idempotent. reflexivity. }
  rewrite Eplay, Estop. split; [exact Hp|]. split; [exact Ef|].
  unfold draw. rewrite Ec, Hc, Ea, Hn, Em. cbn [andb].
  destruct (circular w && small_canvas w).
  - split; [exact Ea|]. split; [exact Hp | exact Ef].
  - cbn [audio set_next set_frame pending animationFrameId]. split; [exact Ea|].
    rewrite Hp. eexists. split; reflexivity.
Qed.

Lemma pause_then_play_resumes_witness :
  reachable (sample_world true) /\
  exists id, pending (onPlay 1 (onStop (sample_world true))) = [id].
Proof.
  pose proof (sample_reachable true) as Hr. split; [exact Hr|].
  destruct (pause_then_play_resumes (sample_world true) 1 Hr
              ltac:(vm_compute; reflexivity) ltac:(vm_compute; reflexivity)
              ltac:(vm_compute; reflexivity) ltac:(vm_compute; reflexivity))
    as [_ [_ [_ H]]].
  assert (Ec : circular (sample_world true) && small_canvas (sample_world true) = false)
    by (vm_compute; reflexivity).
  rewrite Ec in H. destruct H as [id [Hp _]].
  exists id. exact Hp.
Defined.

(** X4: [setEnabled(false)] detaches the visualizer: it is disabled and
    not initialized, no frame is pending, and while it stays disabled
    attaching an element and the play/pause listeners change nothing.
    The callbacks already registered on elements ([loadeddata], the retry
    timer) are kept. *)
Theorem disable_detaches (w : World) (Hr : reachable w) :
  let w' := Capture.setEnabled false w in
  visualizerEnabled w' = false /\ isInitialized (audio w') = false /\
  animationFrameId w' = None /\ pending w' = [] /\ tasks w' = tasks w /\
  (forall e, connectToAudioElement e w' = w' /\ onPlay e w' = w' /\ onStop w' = w').
Proof.
  cbn zeta. unfold Capture.setEnabled.
  destruct (cleanup_keeps (set_enabled w false)) as [E1 [_ [_ [_ [E5 [_ [E7 E8]]]]]]].
  split; [exact E1|]. split; [exact E7|]. split; [exact E8|]. split.
  { rewrite cleanup_pending. apply stop_pending.
    eapply loop_mono_inv; [apply reachable_loop_inv, Hr | apply mono_set_enabled]. }
  split; [exact E5|].
  intros e. unfold connectToAudioElement, onPlay, onStop. rewrite E1. repeat split.
Qed.

Lemma disable_detaches_witness :
  reachable (sample_world true) /\
  connectToAudioElement 1 (Capture.setEnabled false (sample_world true))
    = Capture.setEnabled false (sample_world true).
Proof.
  pose proof (sample_reachable true) as Hr. split; [exact Hr|].
  destruct (disable_detaches _ Hr) as [_ [_ [_ [_ [_ H]]]]]. exact (proj1 (H 1)).
Defined.

(** X5: disabling does not cancel an initialization that is waiting for
    the element to load: a reachable state has the visualizer disabled
    yet initialized, with the render loop running. *)
Theorem disabled_visualizer_revived :
  exists w, reachable w /\ visualizerEnabled w = false /\
    isInitialized (audio w) = true /\ pending w <> [].
Proof.
  (* an official node; its player starts element 1 before it has loaded;
     the node attaches it; the user disables the visualizer; the element
     loads and its [loadeddata] callback fires *)
  set (w0 := init_world true true true true).
  set (w1 := set_elem w0 1 (mkElem 0 false "input/a.wav"%string 0 None 0)).
  set (w2 := connectToAudioElement 1 w1).
  set (w3 := Capture.setEnabled false w2).
  set (w4 := set_elem w3 1 (mkElem 4 false "input/a.wav"%string 0
                            (_audioVisualizerSource (get_elem w3 1)) (mes_calls (get_elem w3 1)))).
  set (w5 := initContext 1 (set_tasks w4 (remove_task (TLoaded 1) (tasks w4)))).
  exists w5.
  assert (R4 : reachable w4).
  { apply (ReachStep w3); [|apply StepPlayer].
    apply (ReachStep w2); [|apply StepSetEnabled].
    apply (ReachStep w1); [|apply StepConnect].
    apply (ReachStep w0); [apply ReachInit | apply StepPlayer]. }
  split.
  - apply (ReachStep w4); [exact R4|]. apply StepLoaded; vm_compute; [left; reflexivity | lia].
  - vm_compute. split; [reflexivity|]. split; [reflexivity | discriminate].
Qed.

Lemma cleanup_clean (w : World) :
  animationFrameId w = None -> source (audio w) = None -> analyser (audio w) = None ->
  isInitialized (audio w) = false -> audioElement (audio w) = None ->
  (forall c, audioContext (audio w) = Some c -> is_closed w c = true) ->
  cleanup w = w.
Proof.
  destruct w as [en off hc sup [ae ac an so ini] af pe el cl nx ta ci sm]; cbn.
  intros -> -> -> -> -> Hc. unfold cleanup, stopVisualization. cbn.
  destruct ac as [c|]; [rewrite (Hc c eq_refl)|]; destruct off; reflexivity.
Qed.

Lemma cleanup_leaves_clean (w : World) :
  source (audio (cleanup w)) = None /\ audioElement (audio (cleanup w)) = None /\
  (forall c, audioContext (audio (cleanup w)) = Some c -> is_closed (cleanup w) c = true).
Proof.
  unfold cleanup, close_context, stopVisualization, is_closed.
  repeat (case_match; simplify_eq/=); repeat split; try reflexivity; try assumption;
    intros c0 Hc0; first [discriminate | rewrite Hc0 in *; simplify_eq/=; assumption].
Qed.

(** X6: [cleanup] is idempotent, so [destroy()] (the node's removal)
    after [cleanup] or after [setEnabled(false)] changes nothing. *)
Theorem cleanup_idempotent (w : World) :
  cleanup (cleanup w) = cleanup w /\
  destroy (Capture.setEnabled false w) = Capture.setEnabled false w.
Proof.
  assert (H : forall w, cleanup (cleanup w) = cleanup w).
  { intros w0. destruct (cleanup_keeps w0) as [_ [_ [_ [_ [_ [Ea [Ei Ef]]]]]]].
    destruct (cleanup_leaves_clean w0) as [Es [Ee Ec]].
    apply cleanup_clean; assumption. }
  split; [apply H|]. unfold destroy, Capture.setEnabled. apply H.
Qed.

End SessionExtras.

Module LoaderFacts.
Import Capture CaptureInv Loader LoopFacts SpliceFacts SessionFacts SessionExtras.

Lemma cleanup_dom (w : World) : dom (elems w) ⊆ dom (elems (cleanup w)).
Proof.
  rewrite cleanup_elems. destruct (isOfficialNode w); [done|].
  destruct (audioElement (audio w)); [|done]. rewrite dom_insert_L. set_solver.
Qed.

(** X7: [loadAudio] does nothing on an official node. On a custom node
    without an [audioUI] element it cleans the old session up and binds a
    new element, distinct from every element seen so far, unloaded,
    paused, holding the URL and without a source node: nothing is
    initialized and no frame is pending. With an [audioUI] element it
    cleans up and attaches that element. Either way at most one frame
    stays pending and each element keeps at most one source node. *)
Theorem loadAudio_fresh_element (w : World) (url : string) (Hr : reachable w) :
  (isOfficialNode w = true -> forall a, loadAudio a url w = w) /\
  (isOfficialNode w = false ->
     exists e, elems w !! e = None /\
       audioElement (audio (loadAudio None url w)) = Some e /\
       get_elem (loadAudio None url w) e = mkElem 0 true url 0 None 0 /\
       isInitialized (audio (loadAudio None url w)) = false /\
       animationFrameId (loadAudio None url w) = None /\
       pending (loadAudio None url w) = []) /\
  (forall a, loop_inv (loadAudio a url w) /\ splice_inv (loadAudio a url w)).
Proof.
  pose proof (reachable_loop_inv w Hr) as Hl.
  pose proof (reachable_splice w Hr) as Hs.
  assert (Hcp : pending (cleanup w) = []) by (rewrite cleanup_pending; apply stop_pending, Hl).
  destruct (cleanup_keeps w) as [_ [_ [_ [_ [_ [_ [Ei Ef]]]]]]].
  split; [intros Ho a; unfold loadAudio; rewrite Ho; reflexivity|].
  split.
  - intros Ho. unfold loadAudio. rewrite Ho.
    set (e := fresh (dom (elems (cleanup w)))).
    exists e. split.
    + apply not_elem_of_dom. intros Hin. apply (is_fresh (dom (elems (cleanup w)))).
      apply cleanup_dom, Hin.
    + cbn. split; [reflexivity|]. split.
      * unfold get_elem. cbn. rewrite lookup_insert. case_decide; [reflexivity | congruence].
      * split; [exact Ei|]. split; [exact Ef | exact Hcp].
  - intros a. unfold loadAudio. destruct (isOfficialNode w); [split; assumption|].
    destruct a as [e|].
    + split; [apply connect_inv, cleanup_inv, Hl | apply connect_splice, cleanup_splice, Hs].
    + split; [left; exact Hcp|].
      eapply splice_insert; [reflexivity | apply cleanup_splice, Hs | left; split; reflexivity].
Qed.

Lemma loadAudio_fresh_element_witness :
  reachable (sample_world false) /\
  audioElement (audio (loadAudio None "input/b.wav"%string (sample_world false))) <>
  audioElement (audio (sample_world false)).
Proof.
  pose proof (sample_reachable false) as Hr. split; [exact Hr|].
  destruct (loadAudio_fresh_element (sample_world false) "input/b.wav"%string Hr)
    as [_ [Hc _]].
  destruct (Hc eq_refl) as [e [Hn [Ha _]]]. rewrite Ha.
  change (audioElement (audio (sample_world false))) with (Some 1).
  intros E. injection E as ->. vm_compute in Hn. discriminate.
Defined.

End LoaderFacts.

Module PersistFacts.
Import Opacity Capture CaptureInv SessionInv Persist LoopFacts SessionFacts SessionExtras.
Local Open Scope string_scope.

Lemma strict_eq_str_refl (s : string) : strict_eq_str (VStr s) s = true.
Proof. cbn. apply String.eqb_refl. Qed.

Lemma strict_eq_str_false (v : JsVal) (s : string) :
  v <> VStr s -> strict_eq_str v s = false.
Proof.
  intros H. destruct v as [s'| | |]; try reflexivity. cbn.
  destruct (String.eqb_spec s' s); [congruence | reflexivity].
Qed.

Lemma setMode_mode (m : string) (v : Vis) : cfg_mode (setMode m v) = VStr m.
Proof.
  unfold setMode. destruct (strict_eq_str (cfg_mode v) m) eqn:E; [|reflexivity].
  destruct (cfg_mode v) as [s'| | |]; try discriminate. cbn in E.
  apply String.eqb_eq in E. subst. reflexivity.
Qed.

(** X8: [setMode] with the current mode does nothing, so setting a mode
    twice is setting it once; afterwards the mode is the one given. A new
    mode on an initialized visualizer with a canvas restarts the render
    loop, whether or not the audio is playing: exactly one frame is
    pending, unless the new mode is ["circular"] and the canvas is under
    40 px, where [draw] throws and no frame is pending. The session stays
    a reachable one. *)
Theorem setMode_switch (m : string) (v : Vis) (Hr : reachable (world v)) :
  setMode m (setMode m v) = setMode m v /\
  cfg_mode (setMode m v) = VStr m /\
  reachable (world (setMode m v)) /\
  (cfg_mode v <> VStr m -> isInitialized (audio (world v)) = true -> has_ctx (world v) = true ->
   if String.eqb m "circular" && small_canvas (world v) then
     pending (world (setMode m v)) = [] /\ animationFrameId (world (setMode m v)) = None
   else exists id, pending (world (setMode m v)) = [id] /\
                   animationFrameId (world (setMode m v)) = Some id).
Proof.
  split; [unfold setMode at 1; rewrite setMode_mode, strict_eq_str_refl; reflexivity|].
  split; [apply setMode_mode|].
  split.
  - unfold setMode. destruct (strict_eq_str _ _); [exact Hr|]. cbn [world].
    eapply ReachStep; [exact Hr | apply StepMode].
  - intros Hne Hi Hc. unfold setMode. rewrite (strict_eq_str_false _ _ Hne). cbn [world].
    set (w := world v) in *. unfold switchMode.
    set (w1 := set_circular w (String.eqb m "circular")).
    assert (Ea1 : audio w1 = audio w) by reflexivity.
    assert (Ec1 : has_ctx w1 = has_ctx w) by reflexivity.
    assert (Em1 : circular w1 && small_canvas w1 = String.eqb m "circular" && small_canvas w)
      by reflexivity.
    assert (Hl1 : loop_inv w1)
      by (eapply loop_mono_inv; [apply reachable_loop_inv, Hr | apply mono_set_circular]).
    pose proof (reachable_init_inv w Hr Hi) as Hn.
    pose proof (stop_pending w1 Hl1) as Hp.
    destruct (stop_keeps w1) as [Ea [_ [Ec _]]].
    assert (Em : circular (stopVisualization w1) && small_canvas (stopVisualization w1)
                 = circular w1 && small_canvas w1)
      by (unfold stopVisualization; destruct (animationFrameId w1); reflexivity).
    rewrite Ea1, Hi. unfold startVisualization. rewrite Ea1, Hi, Hn, Ec1, Hc. cbn [andb].
    unfold draw. rewrite Ec, Ec1, Hc, Ea, Ea1, Hn, Em, Em1. cbn [andb].
    destruct (String.eqb m "circular" && small_canvas w).
    + split; [exact Hp|]. unfold stopVisualization.
      destruct (animationFrameId w1) eqn:E; [reflexivity | exact E].
    + cbn [set_next set_frame pending animationFrameId]. rewrite Hp.
      eexists. split; reflexivity.
Qed.

Lemma setMode_switch_witness :
  reachable (world (mkVis (VStr "bars") (VNum (JFin (1 # 5))) ∅ (sample_world true))) /\
  exists id, pending (world (setMode "wave" (mkVis (VStr "bars") (VNum (JFin (1 # 5))) ∅
                                               (sample_world true)))) = [id].
Proof.
  pose proof (sample_reachable true) as Hr. split; [exact Hr|].
  destruct (setMode_switch "wave" (mkVis (VStr "bars") (VNum (JFin (1 # 5))) ∅ (sample_world true)) Hr)
    as [_ [_ [_ H]]].
  pose proof (H ltac:(discriminate) ltac:(vm_compute; reflexivity) ltac:(vm_compute; reflexivity))
    as H'.
  assert (Ecirc : String.eqb "wave" "circular" &&
                  small_canvas (world (mkVis (VStr "bars") (VNum (JFin (1 # 5))) ∅ (sample_world true)))
                  = false) by (vm_compute; reflexivity).
  rewrite Ecirc in H'. destruct H' as [id [Hp _]].
  exists id. exact Hp.
Defined.

Lemma setEnabled_enabled (b : bool) (w : World) :
  visualizerEnabled (Capture.setEnabled b w) = b.
Proof.
  unfold Capture.setEnabled. destruct b; [reflexivity|].
  exact (proj1 (cleanup_keeps (set_enabled w false))).
Qed.

Lemma keys_distinct :
  modeStorageKey <> enabledKey /\ modeStorageKey <> opacityStorageKey /\
  opacityStorageKey <> enabledKey.
Proof. unfold modeStorageKey, enabledKey, opacityStorageKey. repeat split; discriminate. Qed.

(** X9: on an official node the settings survive a reload: if what a new
    [AudioVisualizer] would read from [node.properties] is the live mode,
    opacity and enabled flag, this stays so after [setEnabled],
    [setBackgroundOpacity] and [setMode] with a non-empty mode. An empty
    mode is stored but read back as "bars". The state a new visualizer
    starts from is such a state. *)
Theorem settings_restored (v : Vis) :
  isOfficialNode (world v) = true -> restored_consistent v ->
  (forall b, restored_consistent (setEnabled b v)) /\
  (forall x, restored_consistent (setBackgroundOpacity x v)) /\
  (forall m, m <> "" -> restored_consistent (setMode m v)) /\
  (cfg_mode v <> VStr "" -> init_mode true (properties (setMode "" v)) = VStr "bars").
Proof.
  intros Ho [Hm [Hop He]]. destruct keys_distinct as [K1 [K2 K3]].
  split; [|split; [|split]].
  - intros b. unfold setEnabled, restored_consistent, init_mode, init_opacity, init_enabled in *.
    cbn [cfg_mode backgroundOpacity properties world]. rewrite Ho.
    rewrite !lookup_insert. repeat case_decide; try congruence.
    rewrite setEnabled_enabled. split; [exact Hm|]. split; [exact Hop | reflexivity].
  - intros x. unfold setBackgroundOpacity, restored_consistent, init_mode, init_opacity, init_enabled in *.
    cbn [cfg_mode backgroundOpacity properties world]. rewrite Ho.
    rewrite !lookup_insert. repeat case_decide; try congruence.
    split; [exact Hm|]. split; [reflexivity | exact He].
  - intros m Hne. unfold setMode.
    destruct (strict_eq_str (cfg_mode v) m); [split; [exact Hm | split; assumption]|].
    unfold restored_consistent, init_mode, init_opacity, init_enabled in *.
    cbn [cfg_mode backgroundOpacity properties world]. rewrite Ho.
    rewrite !lookup_insert. repeat case_decide; try congruence.
    cbn [truthy]. destruct (String.eqb_spec m ""); [congruence|]. cbn [negb].
    split; [reflexivity|]. split; [exact Hop|].
    unfold switchMode. destruct (isInitialized _); [|exact He].
    rewrite (proj1 (proj2 (start_keeps (set_circular (world v) (String.eqb m "circular"))))).
    exact He.
  - intros Hne. unfold setMode. rewrite (strict_eq_str_false _ _ Hne). cbn [properties world].
    rewrite Ho. unfold init_mode. rewrite lookup_insert. case_decide; [reflexivity | congruence].
Qed.

Lemma settings_restored_witness :
  let v := mkVis (init_mode true ∅) (init_opacity true ∅) ∅ (init_world (init_enabled ∅) true true true) in
  restored_consistent v /\ restored_consistent (setMode "circular" v).
Proof.
  cbn zeta.
  assert (H : restored_consistent
    (mkVis (init_mode true ∅) (init_opacity true ∅) ∅ (init_world (init_enabled ∅) true true true)))
    by (split; [reflexivity | split; reflexivity]).
  split; [exact H|].
  exact (proj1 (proj2 (proj2 (settings_restored
    (mkVis (init_mode true ∅) (init_opacity true ∅) ∅ (init_world (init_enabled ∅) true true true))
    eq_refl H))) "circular" ltac:(discriminate)).
Defined.

(** X10: the mode menu and [getModeLabel] agree: after a click on any of
    the three menu items the button shows the item's label, which is the
    label [updateModeMenu] computes from the new mode; any other mode
    string is labelled "Visualizer". *)
Theorem menu_labels_agree (v : Vis) :
  Forall (fun item => getModeLabel (cfg_mode (fst (menu_click item v))) = snd (menu_click item v))
    modes /\
  (forall s, ~ In s (map fst modes) -> getModeLabel (VStr s) = "Visualizer").
Proof.
  split.
  - unfold modes. repeat constructor; cbn [menu_click fst snd]; rewrite setMode_mode; reflexivity.
  - intros s Hs. unfold getModeLabel, strict_eq_str. cbn in Hs.
    destruct (String.eqb_spec s "wave"); [subst; exfalso; apply Hs; cbn; auto|].
    destruct (String.eqb_spec s "bars"); [subst; exfalso; apply Hs; cbn; auto|].
    destruct (String.eqb_spec s "circular"); [subst; exfalso; apply Hs; cbn; auto | reflexivity].
Qed.

End PersistFacts.

Module ColorFacts.
Import AudioUrl Colors.
Local Open Scope string_scope.

Lemma hex_digit_char (c : ascii) (d : nat) :
  hex_digit c = Some d ->
  is_ws c = false /\ Ascii.eqb c "-" = false /\ Ascii.eqb c "+" = false /\
  Ascii.eqb c "x" = false /\ Ascii.eqb c "X" = false /\ (d < 16)%nat.
Proof.
  destruct c as [[] [] [] [] [] [] [] []]; vm_compute; intros H;
    try discriminate; injection H as <-; repeat split; lia.
Qed.

Lemma parseInt16_two_digits (c1 c2 : ascii) (d1 d2 : nat) :
  hex_digit c1 = Some d1 -> hex_digit c2 = Some d2 ->
  parseInt16 (String c1 (String c2 EmptyString)) = Some (Z.of_nat (16 * d1 + d2)).
Proof.
  intros H1 H2.
  destruct (hex_digit_char c1 d1 H1) as [W1 [M1 [P1 _]]].
  destruct (hex_digit_char c2 d2 H2) as [_ [_ [_ [X2 [X2' _]]]]].
  unfold parseInt16. cbn [trim_start]. rewrite W1, M1, P1.
  rewrite X2, X2'. cbn [orb]. rewrite andb_false_r.
  cbn [hex_value]. rewrite H1. cbn [hex_value]. rewrite H2. cbn.
  f_equal. lia.
Qed.

Lemma str_drop_short (n : nat) (s : string) :
  (String.length s <= n)%nat -> str_drop n s = EmptyString.
Proof.
  revert s. induction n as [|n IH]; intros [|c s] Hl; cbn in *; try reflexivity; try lia.
  apply IH. lia.
Qed.

(** X11: [hexToRgba] on a colour ["#rrggbb"] (any first character, six
    hex digits of either case, then anything) gives
    ["rgba(r, g, b, alpha)"] with each channel the value of its two
    digits, between 0 and 255. *)
Theorem hexToRgba_six_digits (c0 c1 c2 c3 c4 c5 c6 : ascii) (rest alpha : string)
    (d1 d2 d3 d4 d5 d6 : nat) :
  hex_digit c1 = Some d1 -> hex_digit c2 = Some d2 -> hex_digit c3 = Some d3 ->
  hex_digit c4 = Some d4 -> hex_digit c5 = Some d5 -> hex_digit c6 = Some d6 ->
  (16 * d1 + d2 < 256 /\ 16 * d3 + d4 < 256 /\ 16 * d5 + d6 < 256)%nat /\
  hexToRgba (String c0 (String c1 (String c2 (String c3 (String c4 (String c5 (String c6 rest)))))))
    alpha =
  "rgba(" ++ number_text (Some (Z.of_nat (16 * d1 + d2))) ++ ", "
    ++ number_text (Some (Z.of_nat (16 * d3 + d4))) ++ ", "
    ++ number_text (Some (Z.of_nat (16 * d5 + d6))) ++ ", " ++ alpha ++ ")".
Proof.
  intros H1 H2 H3 H4 H5 H6.
  pose proof (proj2 (proj2 (proj2 (proj2 (proj2 (hex_digit_char _ _ H1)))))).
  pose proof (proj2 (proj2 (proj2 (proj2 (proj2 (hex_digit_char _ _ H2)))))).
  pose proof (proj2 (proj2 (proj2 (proj2 (proj2 (hex_digit_char _ _ H3)))))).
  pose proof (proj2 (proj2 (proj2 (proj2 (proj2 (hex_digit_char _ _ H4)))))).
  pose proof (proj2 (proj2 (proj2 (proj2 (proj2 (hex_digit_char _ _ H5)))))).
  pose proof (proj2 (proj2 (proj2 (proj2 (proj2 (hex_digit_char _ _ H6)))))).
  split; [lia|].
  unfold hexToRgba, substring2. cbn [Nat.sub str_drop str_take].
  rewrite (parseInt16_two_digits c1 c2 d1 d2 H1 H2), (parseInt16_two_digits c3 c4 d3 d4 H3 H4),
    (parseInt16_two_digits c5 c6 d5 d6 H5 H6).
  reflexivity.
Qed.

Lemma hexToRgba_six_digits_witness :
  hexToRgba "#8b5cf6" "0.35" = "rgba(139, 92, 246, 0.35)".
Proof.
  exact (proj2 (hexToRgba_six_digits "#" "8" "b" "5" "c" "f" "6" EmptyString "0.35"
                  8 11 5 12 15 6 eq_refl eq_refl eq_refl eq_refl eq_refl eq_refl)).
Defined.

(** X12: [hexToRgba] on a colour of at most five characters (such as the
    short form ["#fff"]) prints [NaN] for the blue channel; with at most
    three characters the green channel is [NaN] as well. *)
Theorem hexToRgba_short_color (hex alpha : string) :
  (String.length hex <= 5)%nat ->
  (exists r g, hexToRgba hex alpha = "rgba(" ++ r ++ ", " ++ g ++ ", NaN, " ++ alpha ++ ")") /\
  ((String.length hex <= 3)%nat ->
   exists r, hexToRgba hex alpha = "rgba(" ++ r ++ ", NaN, NaN, " ++ alpha ++ ")").
Proof.
  intros Hl. unfold hexToRgba, substring2. cbn [Nat.sub].
  rewrite (str_drop_short 5 hex Hl). split.
  - eexists _, _. reflexivity.
  - intros Hl3. rewrite (str_drop_short 3 hex Hl3). eexists. reflexivity.
Qed.

Lemma hexToRgba_short_color_witness :
  (String.length "#fff" <= 5)%nat /\
  exists r g, hexToRgba "#fff" "0.35" = "rgba(" ++ r ++ ", " ++ g ++ ", NaN, 0.35)".
Proof.
  split; [cbn; lia|].
  exact (proj1 (hexToRgba_short_color "#fff" "0.35" ltac:(cbn; lia))).
Defined.

End ColorFacts.

Module SizingFacts.
Import Tick Sizing.
Local Open Scope Q_scope.

Lemma to_uint_ge (q : Q) (n : nat) :
  inject_Z (Z.of_nat n) <= q -> (n <= to_uint q)%nat.
Proof.
  intros H. unfold to_uint.
  pose proof (Qfloor_resp_le _ _ H) as Hf. rewrite Qfloor_Z in Hf. lia.
Qed.

Lemma to_uint_le (q : Q) (n : nat) :
  q <= inject_Z (Z.of_nat n) -> (to_uint q <= n)%nat.
Proof.
  intros H. unfold to_uint.
  pose proof (Qfloor_resp_le _ _ H) as Hf. rewrite Qfloor_Z in Hf. lia.
Qed.

(** X13: the resize handler only acts on a visible target: when the rect
    has a positive width and height the canvas gets at least 400 x 200
    pixels, and a custom node's canvas is at most 300 pixels high;
    otherwise the canvas keeps its size. *)
Theorem onResize_bounds (isOfficialNode : bool) (rw rh : Q) (width height : nat) :
  (0 < rw -> 0 < rh ->
   (400 <= fst (onResize isOfficialNode rw rh width height))%nat /\
   (200 <= snd (onResize isOfficialNode rw rh width height))%nat /\
   (isOfficialNode = false -> (snd (onResize isOfficialNode rw rh width height) <= 300)%nat)) /\
  (rw <= 0 \/ rh <= 0 -> onResize isOfficialNode rw rh width height = (width, height)).
Proof.
  unfold onResize. split.
  - intros Hw Hh.
    destruct (Qlt_le_dec 0 rw) as [_|C]; [|exfalso; apply (Qlt_not_le _ _ Hw C)].
    destruct (Qlt_le_dec 0 rh) as [_|C]; [|exfalso; apply (Qlt_not_le _ _ Hh C)].
    cbn [fst snd]. split; [|split].
    + apply to_uint_ge. apply Q.le_max_l.
    + apply to_uint_ge. apply Q.le_max_l.
    + intros ->. apply to_uint_le. apply Q.max_lub; [discriminate | apply Q.le_min_l].
  - intros [C|C].
    + destruct (Qlt_le_dec 0 rw) as [Hw|_]; [exfalso; apply (Qlt_not_le _ _ Hw C)|reflexivity].
    + destruct (Qlt_le_dec 0 rw) as [_|_]; [|reflexivity].
      destruct (Qlt_le_dec 0 rh) as [Hh|_]; [exfalso; apply (Qlt_not_le _ _ Hh C)|reflexivity].
Qed.

Lemma js_round_eq (p q : Q) : p == q -> js_round p = js_round q.
Proof. intros H. unfold js_round. apply Qfloor_comp. rewrite H. reflexivity. Qed.

Lemma js_round_le (q : Q) (z : Z) : q <= inject_Z z -> (js_round q <= z)%Z.
Proof.
  intros H. unfold js_round.
  pose proof (Qfloor_le (q + (1 # 2))) as Hf.
  assert (Hl : inject_Z (Qfloor (q + (1 # 2))) < inject_Z (z + 1)).
  { rewrite inject_Z_plus. change (inject_Z 1) with 1. lra. }
  rewrite <- Zlt_Qlt in Hl. lia.
Qed.

Lemma js_round_ge (q : Q) (z : Z) : inject_Z z <= q -> (z <= js_round q)%Z.
Proof.
  intros H. unfold js_round.
  assert (H' : inject_Z z <= q + (1 # 2)) by lra.
  pose proof (Qfloor_resp_le _ _ H') as Hf. rewrite Qfloor_Z in Hf. exact Hf.
Qed.

Lemma js_round_Z (z : Z) : js_round (inject_Z z) = z.
Proof.
  apply Z.le_antisymm; [apply js_round_le | apply js_round_ge]; apply Qle_refl.
Qed.

Lemma inject_nat_le (a b : nat) : (a <= b)%nat -> inject_Z (Z.of_nat a) <= inject_Z (Z.of_nat b).
Proof. intros H. rewrite <- Zle_Qle. lia. Qed.

Lemma inject_nat_nonneg (a : nat) : 0 <= inject_Z (Z.of_nat a).
Proof. change 0 with (inject_Z 0). rewrite <- Zle_Qle. lia. Qed.

Lemma scale_bound (M m n : Q) :
  0 < m -> 0 < M -> 0 <= n -> n <= m -> 0 <= n * Qmin 1 (M / m) <= M.
Proof.
  intros Hm HM Hn Hnm.
  assert (Hd : 0 <= M / m) by (apply Qle_shift_div_l; [exact Hm | lra]).
  assert (Hs : 0 <= Qmin 1 (M / m)) by (apply Q.min_glb; [discriminate | exact Hd]).
  split; [apply Qmult_le_0_compat; assumption|].
  apply Qle_trans with (m * Qmin 1 (M / m)); [apply Qmult_le_compat_r; assumption|].
  apply Qle_trans with (m * (M / m)).
  - apply Qmult_le_l; [exact Hm | apply Q.le_min_r].
  - apply Qle_lteq. right. field. intros E. rewrite E in Hm. discriminate.
Qed.

Lemma scaled_side_le (maxSize : positive) (m n : nat) :
  (n <= m)%nat ->
  (Nat.max 1 (Z.to_nat (js_round (inject_Z (Z.of_nat n) *
     (if Nat.eqb m 0 then 1 else Qmin 1 (inject_Z (Zpos maxSize) / inject_Z (Z.of_nat m))))))
   <= Pos.to_nat maxSize)%nat.
Proof.
  intros Hnm. destruct (Nat.eqb_spec m 0) as [E|E].
  - assert (n = 0%nat) by lia. subst. rewrite (js_round_eq _ (inject_Z 0)) by reflexivity.
    rewrite js_round_Z. lia.
  - assert (Hm : 0 < inject_Z (Z.of_nat m)).
    { change 0 with (inject_Z 0). rewrite <- Zlt_Qlt. lia. }
    destruct (scale_bound (inject_Z (Zpos maxSize)) _ _ Hm ltac:(reflexivity)
                (inject_nat_nonneg n) (inject_nat_le _ _ Hnm)) as [_ Hle].
    apply js_round_le in Hle. lia.
Qed.

(** X14: the background image's canvas ([createImageCanvasFromDataUrl])
    has each side between 1 and [maxSize]; an image that fits keeps its
    size (an empty side becomes 1); a larger image is scaled down so that
    its larger side is exactly [maxSize]. *)
Theorem scaled_canvas_size_bounds (maxSize : positive) (iw ih : nat) :
  (1 <= fst (scaled_canvas_size maxSize iw ih) <= Pos.to_nat maxSize)%nat /\
  (1 <= snd (scaled_canvas_size maxSize iw ih) <= Pos.to_nat maxSize)%nat /\
  ((iw <= Pos.to_nat maxSize)%nat -> (ih <= Pos.to_nat maxSize)%nat ->
   scaled_canvas_size maxSize iw ih = (Nat.max 1 iw, Nat.max 1 ih)) /\
  ((Pos.to_nat maxSize < Nat.max iw ih)%nat ->
   Nat.max (fst (scaled_canvas_size maxSize iw ih)) (snd (scaled_canvas_size maxSize iw ih))
   = Pos.to_nat maxSize).
Proof.
  unfold scaled_canvas_size. cbn [fst snd].
  set (m := Nat.max iw ih).
  split; [split; [lia | apply scaled_side_le; lia]|].
  split; [split; [lia | apply scaled_side_le; lia]|].
  split.
  - intros Hw Hh. destruct (Nat.eqb_spec m 0) as [E0|E0].
    + assert (iw = 0%nat) by lia. assert (ih = 0%nat) by lia. subst iw ih. reflexivity.
    + assert (Hm : 0 < inject_Z (Z.of_nat m)).
      { change 0 with (inject_Z 0). rewrite <- Zlt_Qlt. lia. }
      assert (Hs : Qmin 1 (inject_Z (Zpos maxSize) / inject_Z (Z.of_nat m)) == 1).
      { apply Q.min_l. apply Qle_shift_div_l; [exact Hm|].
        rewrite Qmult_1_l. rewrite <- Zle_Qle. lia. }
      rewrite (js_round_eq (inject_Z (Z.of_nat iw) * Qmin 1 (inject_Z (Zpos maxSize) / inject_Z (Z.of_nat m)))
                 (inject_Z (Z.of_nat iw))) by (rewrite Hs; ring).
      rewrite (js_round_eq (inject_Z (Z.of_nat ih) * Qmin 1 (inject_Z (Zpos maxSize) / inject_Z (Z.of_nat m)))
                 (inject_Z (Z.of_nat ih))) by (rewrite Hs; ring).
      rewrite !js_round_Z, !Nat2Z.id. reflexivity.
  - intros Hlt.
    assert (E : Nat.eqb m 0 = false) by (apply Nat.eqb_neq; lia). rewrite E.
    assert (Hm : 0 < inject_Z (Z.of_nat m)).
    { change 0 with (inject_Z 0). rewrite <- Zlt_Qlt. lia. }
    assert (Hs : Qmin 1 (inject_Z (Zpos maxSize) / inject_Z (Z.of_nat m)) ==
                 inject_Z (Zpos maxSize) / inject_Z (Z.of_nat m)).
    { apply Q.min_r. apply Qle_shift_div_r; [exact Hm|].
      rewrite Qmult_1_l. apply Qlt_le_weak. rewrite <- Zlt_Qlt. lia. }
    assert (Hfull : forall n, n = m ->
      Nat.max 1 (Z.to_nat (js_round (inject_Z (Z.of_nat n) *
         Qmin 1 (inject_Z (Zpos maxSize) / inject_Z (Z.of_nat m))))) = Pos.to_nat maxSize).
    { intros n ->. rewrite (js_round_eq _ (inject_Z (Zpos maxSize))).
      - rewrite js_round_Z. lia.
      - rewrite Hs. field. intros Z0. rewrite Z0 in Hm. discriminate. }
    pose proof (scaled_side_le maxSize m iw ltac:(lia)) as Lw.
    pose proof (scaled_side_le maxSize m ih ltac:(lia)) as Lh.
    rewrite E in Lw, Lh.
    destruct (Nat.max_spec iw ih) as [[_ Em]|[_ Em]]; fold m in Em.
    + rewrite (Hfull ih (eq_sym Em)). lia.
    + rewrite (Hfull iw (eq_sym Em)). lia.
Qed.

End SizingFacts.

Module RenderExtras.
Import Render.
Local Open Scope Q_scope.

Lemma byte_height (d : Z) (H : Q) :
  (0 <= d <= 255)%Z -> 0 <= H -> 0 <= (inject_Z d / 255) * H <= H.
Proof.
  intros [D0 D1] HH.
  assert (E0 : 0 <= inject_Z d) by (change 0 with (inject_Z 0); rewrite <- Zle_Qle; lia).
  assert (E1 : inject_Z d <= 255) by (change 255 with (inject_Z 255); rewrite <- Zle_Qle; lia).
  assert (Ed : 0 <= inject_Z d / 255 <= 1).
  { split; [apply Qle_shift_div_l; [reflexivity | lra]|].
    apply Qle_shift_div_r; [reflexivity | lra]. }
  split; [apply Qmult_le_0_compat; lra|].
  apply Qle_trans with (1 * H); [apply Qmult_le_compat_r; lra | lra].
Qed.

Lemma bars_loop_in_canvas (W H bw : Q) (data : list Z) (x : Q) :
  0 <= x <= W -> 0 <= H -> 0 <= bw -> Forall (fun d => 0 <= d <= 255)%Z data ->
  (length (bars_loop W H bw data x) <= length data)%nat /\
  Forall (fun op => exists x0 h, op = FillRect x0 (H - h) bw h /\ 0 <= x0 <= W /\ 0 <= h <= H)
    (bars_loop W H bw data x).
Proof.
  revert x. induction data as [|d rest IH]; intros x Hx HH Hb Hd; [split; [cbn; lia | constructor]|].
  inversion Hd as [|? ? Hd0 Hrest]; subst.
  cbn [bars_loop]. destruct (Qle_bool (x + bw + 1) W) eqn:Ew.
  - apply Qle_bool_iff in Ew.
    destruct (IH (x + bw + 1)) as [L F]; [split; lra | exact HH | exact Hb | exact Hrest|].
    split; [cbn [length]; lia|].
    constructor; [|exact F].
    exists x, (inject_Z d / 255 * H). split; [reflexivity|]. split; [exact Hx|].
    apply byte_height; assumption.
  - split; [cbn; lia|]. constructor; [|constructor].
    exists x, (inject_Z d / 255 * H). split; [reflexivity|]. split; [exact Hx|].
    apply byte_height; assumption.
Qed.

(** X15: for a canvas of non-negative size and byte samples, [drawBars]
    only fills rectangles standing on the bottom edge: each starts at an
    x inside [0, WIDTH], has the common [barWidth] and a height between 0
    and [HEIGHT]; at most [bufferLength] bars are drawn. *)
Theorem drawBars_in_canvas (data : list Z) (W H : Q) (bl : nat) :
  0 <= W -> 0 <= H -> Forall (fun d => 0 <= d <= 255)%Z data ->
  (length (drawBars data W H bl) <= bl)%nat /\
  Forall (fun op => exists x h,
            op = FillRect x (H - h) ((W / inject_Z (Z.of_nat bl)) * (5 # 2)) h /\
            0 <= x <= W /\ 0 <= h <= H)
    (drawBars data W H bl).
Proof.
  intros HW HH Hd. unfold drawBars.
  assert (Hb : 0 <= W / inject_Z (Z.of_nat bl) * (5 # 2)).
  { apply Qmult_le_0_compat; [|discriminate].
    destruct bl as [|n]; [unfold Qdiv; cbn; rewrite Qmult_0_r; apply Qle_refl|].
    apply Qle_shift_div_l; [change 0 with (inject_Z 0); rewrite <- Zlt_Qlt; lia | lra]. }
  destruct (bars_loop_in_canvas W H _ (firstn bl data) 0 ltac:(split; lra) HH Hb
              ltac:(apply Forall_take; exact Hd)) as [L F].
  split; [|exact F]. rewrite length_firstn in L. lia.
Qed.

Lemma drawBars_in_canvas_witness :
  0 <= 800 /\ 0 <= 200 /\ (length (drawBars [255%Z; 0%Z; 128%Z] 800 200 3) <= 3)%nat.
Proof.
  split; [discriminate|]. split; [discriminate|].
  exact (proj1 (drawBars_in_canvas [255%Z; 0%Z; 128%Z] 800 200 3 ltac:(discriminate)
                  ltac:(discriminate) ltac:(repeat constructor; lia))).
Defined.

Lemma bars_loop_reach (W H bw : Q) (data : list Z) (x : Q) (n : nat) :
  (S (S n) <= length (bars_loop W H bw data x))%nat ->
  x + inject_Z (Z.of_nat (S n)) * (bw + 1) <= W.
Proof.
  revert x n. induction data as [|d rest IH]; intros x n Hl; [cbn in Hl; lia|].
  cbn [bars_loop length] in Hl. destruct (Qle_bool (x + bw + 1) W) eqn:Ew; [|cbn in Hl; lia].
  apply Qle_bool_iff in Ew. destruct n as [|n].
  - change (inject_Z (Z.of_nat 1)) with 1. lra.
  - specialize (IH (x + bw + 1) n ltac:(lia)).
    assert (E : inject_Z (Z.of_nat (S (S n))) == inject_Z (Z.of_nat (S n)) + 1).
    { rewrite (Nat2Z.inj_succ (S n)), <- Z.add_1_r, inject_Z_plus. reflexivity. }
    rewrite E.
    assert (E2 : x + (inject_Z (Z.of_nat (S n)) + 1) * (bw + 1) ==
                 x + bw + 1 + inject_Z (Z.of_nat (S n)) * (bw + 1)) by ring.
    rewrite E2. exact IH.
Qed.

(** X16: on a canvas of positive width, [drawBars] stops once the next
    bar would start past the right edge. With bars 2.5 times as wide as
    the bins, it draws at most [2 * bufferLength / 5 + 1] bars: the
    upper 60% of the frequency bins are never drawn. *)
Theorem drawBars_cutoff (data : list Z) (W H : Q) (bl : nat) :
  0 < W -> (0 < bl)%nat ->
  (5 * (length (drawBars data W H bl) - 1) < 2 * bl)%nat.
Proof.
  intros HW Hbl. unfold drawBars.
  set (bw := W / inject_Z (Z.of_nat bl) * (5 # 2)).
  set (L := length (bars_loop W H bw (firstn bl data) 0)).
  destruct L as [|[|n]] eqn:EL; [lia | lia|].
  assert (Hr := bars_loop_reach W H bw (firstn bl data) 0 n ltac:(rewrite <- EL; lia)).
  assert (Hn : 0 <= inject_Z (Z.of_nat (S n))) by
    (change 0 with (inject_Z 0); rewrite <- Zle_Qle; lia).
  assert (Hpos : 0 < inject_Z (Z.of_nat bl)) by
    (change 0 with (inject_Z 0); rewrite <- Zlt_Qlt; lia).
  assert (Hlt : inject_Z (Z.of_nat (S n)) * bw < W).
  { assert (H1 : 1 <= inject_Z (Z.of_nat (S n))) by
      (change 1 with (inject_Z 1); rewrite <- Zle_Qle; lia).
    assert (E : 0 + inject_Z (Z.of_nat (S n)) * (bw + 1) ==
                inject_Z (Z.of_nat (S n)) * bw + inject_Z (Z.of_nat (S n))) by ring.
    rewrite E in Hr. lra. }
  unfold bw in Hlt.
  assert (Hlt2 : W * (inject_Z (Z.of_nat (S n)) * (5 # 2)) < W * inject_Z (Z.of_nat bl)).
  { assert (E : W * (inject_Z (Z.of_nat (S n)) * (5 # 2)) ==
                (inject_Z (Z.of_nat (S n)) * (W / inject_Z (Z.of_nat bl) * (5 # 2)))
                  * inject_Z (Z.of_nat bl)).
    { field. intros Z0. rewrite Z0 in Hpos. discriminate. }
    rewrite E. apply Qmult_lt_compat_r; assumption. }
  apply Qmult_lt_l in Hlt2; [|exact HW].
  assert (Hz : inject_Z (Z.of_nat (S n) * 5) < inject_Z (Z.of_nat bl * 2)).
  { rewrite !inject_Z_mult. change (inject_Z 5) with 5. change (inject_Z 2) with 2.
    assert (E : inject_Z (Z.of_nat (S n)) * (5 # 2) == inject_Z (Z.of_nat (S n)) * 5 / 2)
      by field.
    rewrite E in Hlt2. lra. }
  rewrite <- Zlt_Qlt in Hz. lia.
Qed.

Lemma drawBars_cutoff_witness :
  0 < 800 /\ (0 < 1024)%nat /\
  (5 * (length (drawBars (repeat 0%Z 1024) 800 200 1024) - 1) < 2 * 1024)%nat.
Proof.
  split; [reflexivity|]. split; [lia|].
  exact (drawBars_cutoff (repeat 0%Z 1024) 800 200 1024 ltac:(reflexivity) ltac:(lia)).
Defined.

End RenderExtras.

Module CircularExtras.
Import Render RenderExtras.
Local Open Scope Q_scope.

Lemma circular_index_lt (bl i : nat) :
  (1 <= bl)%nat -> (i < barsToDraw)%nat -> (i * circular_step bl < bl)%nat.
Proof.
  intros Hb Hi. unfold circular_step, barsToDraw in *.
  pose proof (Nat.Div0.mul_div_le bl 180) as Hd.
  set (q := Nat.div bl 180) in *. nia.
Qed.

(** X17: for at least [bufferLength >= 1] byte samples and
    [r = min(WIDTH, HEIGHT) / 4]: on a canvas under 40 px wide or high
    [drawCircular] stops at the centre disc, whose radius [r - 10] is
    negative (its [arc] throws). On a larger canvas it fills the centre
    disc and draws 180 pairs of radial lines from radius [r], all of a
    defined length: each outer bar ends between [r] and
    [r + min(WIDTH, HEIGHT) / 3], each inner reflection between
    [r - min(WIDTH, HEIGHT) / 10] and [r], so it never crosses the
    centre. *)
Theorem drawCircular_geometry (data : list Z) (W H : Q) (bl : nat) :
  Forall (fun d => 0 <= d <= 255)%Z data ->
  (1 <= bl)%nat -> (bl <= length data)%nat ->
  (Qmin W H < 40 ->
   drawCircular data W H bl = [CenterDisc (Qmin W H / 4 - 10)] /\ Qmin W H / 4 - 10 < 0) /\
  (40 <= Qmin W H ->
   exists rays,
    drawCircular data W H bl = CenterDisc (Qmin W H / 4 - 10) :: rays /\
    length rays = (2 * barsToDraw)%nat /\
    Forall (fun op => exists c i e, op = Radial c i (Qmin W H / 4) (Some e) /\
              0 <= Qmin W H / 4 - Qmin W H / 10 /\
              (c = Primary -> Qmin W H / 4 <= e <= Qmin W H / 4 + Qmin W H / 3) /\
              (c = Secondary -> Qmin W H / 4 - Qmin W H / 10 <= e <= Qmin W H / 4) /\
              (c = Primary \/ c = Secondary)) rays).
Proof.
  intros Hd Hb Hl. unfold drawCircular. cbv zeta.
  set (m := Qmin W H).
  change (m / 4) with (m * (1 # 4)). change (m / 3) with (m * (1 # 3)).
  change (m / 10) with (m * (1 # 10)).
  split.
  - intros Hs. assert (Hneg : m * (1 # 4) - 10 < 0) by lra.
    split; [|exact Hneg].
    destruct (Qle_bool 0 (m * (1 # 4) - 10)) eqn:E; [|reflexivity].
    apply Qle_bool_iff in E. lra.
  - intros Hm.
    assert (E : Qle_bool 0 (m * (1 # 4) - 10) = true) by (apply Qle_bool_iff; lra).
    rewrite E. cbn [negb].
    eexists. split; [reflexivity|]. split; [reflexivity|].
    apply List.Forall_forall. intros op Hin. apply in_flat_map in Hin as [i [Hi Hop]].
    apply in_seq in Hi.
    assert (Hix : (i * circular_step bl < length data)%nat).
    { pose proof (circular_index_lt bl i Hb ltac:(unfold barsToDraw in *; lia)). lia. }
    destruct (nth_error data (i * circular_step bl)) as [d|] eqn:En;
      [|apply nth_error_None in En; lia].
    assert (Hdb : (0 <= d <= 255)%Z).
    { apply nth_error_In in En. exact (proj1 (List.Forall_forall _ _) Hd d En). }
    assert (Hh := byte_height d (m * (1 # 3)) Hdb ltac:(lra)).
    unfold byte_at in Hop. rewrite En in Hop. cbn [option_map] in Hop.
    destruct Hop as [<-|[<-|[]]].
    + exists Primary, i, (m * (1 # 4) + inject_Z d / 255 * (m * (1 # 3))).
      split; [reflexivity|]. split; [lra|]. split; [intros _; lra|].
      split; [discriminate | left; reflexivity].
    + exists Secondary, i, (m * (1 # 4) - inject_Z d / 255 * (m * (1 # 3)) * (3 # 10)).
      split; [reflexivity|]. split; [lra|]. split; [discriminate|].
      split; [intros _; lra | right; reflexivity].
Qed.

Lemma drawCircular_geometry_witness :
  Forall (fun d => 0 <= d <= 255)%Z (repeat 255%Z 1024) /\
  (1 <= 1024)%nat /\ (1024 <= length (repeat 255%Z 1024))%nat /\
  drawCircular (repeat 255%Z 1024) 120 30 1024 = [CenterDisc (Qmin 120 30 / 4 - 10)] /\
  exists rays, drawCircular (repeat 255%Z 1024) 800 200 1024 = CenterDisc (Qmin 800 200 / 4 - 10) :: rays.
Proof.
  assert (Hd : Forall (fun d => 0 <= d <= 255)%Z (repeat 255%Z 1024)).
  { apply List.Forall_forall. intros x Hx. apply repeat_spec in Hx. lia. }
  split; [exact Hd|]. split; [lia|]. split; [rewrite repeat_length; lia|].
  split.
  - exact (proj1 (proj1 (drawCircular_geometry (repeat 255%Z 1024) 120 30 1024 Hd
                           ltac:(lia) ltac:(rewrite repeat_length; lia)) ltac:(reflexivity))).
  - destruct (proj2 (drawCircular_geometry (repeat 255%Z 1024) 800 200 1024 Hd
                       ltac:(lia) ltac:(rewrite repeat_length; lia)) ltac:(discriminate))
      as [rays [E _]].
    exists rays. exact E.
Defined.

End CircularExtras.

Module TickExnFacts.
Import Frame Render Tick TickExn SizingFacts SilenceFacts.
Local Open Scope Q_scope.

Lemma render_throws (m : Mode) (data : list Z) (a b bl : nat) :
  existsb op_throws (render_ops m data (inject_Z (Z.of_nat a)) (inject_Z (Z.of_nat b)) bl) =
  match m with
  | CIRCULAR => negb (Nat.leb 40 (Nat.min a b))
  | _ => false
  end.
Proof.
  destruct m; cbn [render_ops].
  - unfold drawWave. rewrite !existsb_app, wave_primary_safe, wave_secondary_safe. reflexivity.
  - unfold drawBars. apply bars_loop_safe.
  - unfold drawCircular. cbv zeta. cbn [existsb op_throws].
    change (Qmin (inject_Z (Z.of_nat a)) (inject_Z (Z.of_nat b)) / 4) with
      (Qmin (inject_Z (Z.of_nat a)) (inject_Z (Z.of_nat b)) * (1 # 4)).
    destruct (Nat.leb_spec 40 (Nat.min a b)) as [Hle|Hlt].
    + assert (Hq : 40 <= Qmin (inject_Z (Z.of_nat a)) (inject_Z (Z.of_nat b))).
      { apply Q.min_glb; change 40 with (inject_Z (Z.of_nat 40)); apply inject_nat_le; lia. }
      assert (E : Qle_bool 0 (Qmin (inject_Z (Z.of_nat a)) (inject_Z (Z.of_nat b)) * (1 # 4) - 10)
                  = true) by (apply Qle_bool_iff; lra).
      rewrite E. cbn [negb orb]. apply radial_safe. intros i. reflexivity.
    + assert (Hs : Qmin (inject_Z (Z.of_nat a)) (inject_Z (Z.of_nat b)) < 40).
      { destruct (Nat.min_spec a b) as [[_ E]|[_ E]]; rewrite E in Hlt.
        - apply Qle_lt_trans with (inject_Z (Z.of_nat a)); [apply Q.le_min_l|].
          change 40 with (inject_Z 40). rewrite <- Zlt_Qlt. lia.
        - apply Qle_lt_trans with (inject_Z (Z.of_nat b)); [apply Q.le_min_r|].
          change 40 with (inject_Z 40). rewrite <- Zlt_Qlt. lia. }
      assert (E : Qle_bool 0 (Qmin (inject_Z (Z.of_nat a)) (inject_Z (Z.of_nat b)) * (1 # 4) - 10)
                  = false).
      { apply not_true_is_false. intros Hq. apply Qle_bool_iff in Hq. lra. }
      rewrite E. reflexivity.
  - reflexivity.
Qed.

Lemma draw_rescheduled (t : TickIn) :
  has_ctx t && has_analyser t && has_canvas t = true -> rescheduled (Tick.draw t) = true.
Proof.
  intros Hg. unfold Tick.draw. rewrite Hg. cbn [negb].
  repeat case_match; reflexivity.
Qed.

(** X18: when [draw()] runs with its context, analyser and canvas, the
    tick reaches [requestAnimationFrame] unless the mode is circular and
    the canvas is less than 40 pixels wide or high after the resize
    step: then [drawCircular] calls [arc] with the negative radius
    [min(WIDTH, HEIGHT) / 4 - 10], which throws, and the render loop
    stops. *)
Theorem tick_stops_on_small_circular (t : TickIn) (data : list Z) :
  has_ctx t && has_analyser t && has_canvas t = true ->
  (tick_reschedules t data = false <->
   mode t = CIRCULAR /\ (Nat.min (new_width (Tick.draw t)) (new_height (Tick.draw t)) < 40)%nat).
Proof.
  intros Hg. unfold tick_reschedules. rewrite (draw_rescheduled t Hg), render_throws.
  cbn [andb]. destruct (mode t).
  - split; [discriminate | intros [E _]; discriminate].
  - split; [discriminate | intros [E _]; discriminate].
  - rewrite negb_involutive. destruct (Nat.leb_spec 40 (Nat.min (new_width (Tick.draw t))
                                                                   (new_height (Tick.draw t)))).
    + split; [discriminate | intros [_ L]; lia].
    + split; [intros _; split; [reflexivity | lia] | reflexivity].
  - split; [discriminate | intros [E _]; discriminate].
Qed.

Lemma tick_stops_on_small_circular_witness :
  tick_reschedules (mkTickIn true true true 30 100 800 200 CIRCULAR 1024) (repeat 0%Z 1024)
    = false.
Proof.
  apply (tick_stops_on_small_circular (mkTickIn true true true 30 100 800 200 CIRCULAR 1024)
           (repeat 0%Z 1024) eq_refl).
  split; [reflexivity|]. apply Nat.ltb_lt. vm_compute. reflexivity.
Defined.

End TickExnFacts.
